(** * AuraFlow PWA icon generator: a shallow embedding of
      [webapp/icons/generate-pwa-icons.py] and the properties of its
      drawing algorithm.

    The script computes every coordinate with Python's [int(n * c)] on
    IEEE-754 binary64 numbers, so the embedding keeps that arithmetic: a
    Python [float] is a [spec_float] of the Standard Library at precision 53
    and the operations are the library's executable round-to-nearest-even
    specification.  Pillow (the [PIL] package) is not part of the repository;
    what its drawing calls paint is taken as a parameter (class [Pillow])
    constrained by a few laws ([PillowLaws]); an idealised instance
    ([ideal_pillow]) shows the laws are satisfiable and serves for concrete
    evaluation. *)

From Stdlib Require Import ZArith Lia Bool List String Floats.
From stdpp Require Import base option list gmap strings pretty.

Local Open Scope Z_scope.

(* ===================================================================== *)
(** * Part I: definitions                                                 *)
(* ===================================================================== *)

(** ** Python floats: IEEE-754 binary64 *)

Module F64.

Definition prec : Z := 53.
Definition emax : Z := 1024.

(** [float(n)] for a Python [int]: the nearest binary64 (exact below 2^53). *)
Definition of_int (n : Z) : spec_float := binary_normalize prec emax n 0 false.

Definition mul : spec_float → spec_float → spec_float := SFmul prec emax.
Definition add : spec_float → spec_float → spec_float := SFadd prec emax.
Definition div : spec_float → spec_float → spec_float := SFdiv prec emax.

(** [a / b] on two Python ints (true division), for operands below 2^53. *)
Definition truediv (a b : Z) : spec_float := div (of_int a) (of_int b).

(** A decimal literal [num/den] such as [0.15 = 15/100]: the binary64
    nearest to the decimal, which is also what the correctly rounded
    quotient of the two integers is. *)
Definition literal (num den : Z) : spec_float := truediv num den.

(** [int(x)]: truncation toward zero.  Python raises on an infinity or a
    NaN; neither arises in this program for sizes below 2^31, where every
    float is shown finite (see [fval]), and the model returns 0 there. *)
Definition to_int (x : spec_float) : Z :=
  match x with
  | S754_finite s m e =>
      cond_Zopp s (if 0 <=? e then Z.pos m * 2 ^ e else Z.pos m / 2 ^ (- e))
  | _ => 0
  end.

End F64.

(** The literals of the script. *)
Definition lit_0_2  : spec_float := F64.literal 2 10.
Definition lit_0_15 : spec_float := F64.literal 15 100.
Definition lit_0_9  : spec_float := F64.literal 9 10.
Definition lit_0_04 : spec_float := F64.literal 4 100.
Definition lit_0_08 : spec_float := F64.literal 8 100.
Definition lit_0_7  : spec_float := F64.literal 7 10.
Definition lit_0_4  : spec_float := F64.literal 4 10.

(** [int(n * c)] with [n] an int and [c] a float. *)
Definition int_mul (n : Z) (c : spec_float) : Z :=
  F64.to_int (F64.mul (F64.of_int n) c).

(** ** Integer counterparts used to state what the float code computes *)

(** Round-to-nearest, ties-to-even, of the rational [n/d] ([d > 0]). *)
Definition rne (n d : Z) : Z :=
  let q := n / d in
  match 2 * (n mod d) ?= d with
  | Lt => q
  | Eq => if Z.even q then q else q + 1
  | Gt => q + 1
  end.

(** Number of binary digits. *)
Definition digits (n : Z) : Z := Zdigits2 n.

(** The state of the library's bit-by-bit right shift when what is being
    shifted is the rational [n/d]: the integer part, whether the remainder
    reaches one half (round bit), and whether it is neither zero nor exactly
    one half (sticky bit). *)
Definition rec_of (n d : Z) : shr_record :=
  {| shr_m := n / d;
     shr_r := d <=? 2 * (n mod d);
     shr_s := negb (n mod d =? 0) && negb (2 * (n mod d) =? d) |}.

(** [fval f s R g]: the float [f] is finite and normalised, with sign [s] and
    magnitude [R * 2^g], where [R] is its mantissa at exponent [g]. *)
Definition fval (f : spec_float) (s : bool) (R g : Z) : Prop :=
  ∃ m e, f = S754_finite s m e ∧ g ≤ e ∧ Z.pos m * 2 ^ (e - g) = R ∧
         digits (Z.pos m) = 53 ∧ R ≤ 2 ^ 53.

(** The channel-wise blend [A + (B - A) * y / size] in exact arithmetic,
    truncated to an integer. *)
Definition blend_spec (a b y size : Z) : Z :=
  Z.quot (a * size + (b - a) * y) size.

(** [0.15 * size] rounded to the nearest integer. *)
Definition nearest_radius (size : Z) : Z := rne (15 * size) 100.

(** ** Geometry of [draw_calendar_icon] (lines 39 and 49-81) *)

Definition bg_radius (size : Z) : Z := int_mul size lit_0_15.

Definition safe_zone (size : Z) : Z := int_mul size lit_0_2.
Definition content_size (size : Z) : Z := size - safe_zone size * 2.
Definition content_x (size : Z) : Z := safe_zone size.
Definition content_y (size : Z) : Z := safe_zone size.

Definition padding (size : Z) : Z := int_mul (content_size size) lit_0_2.
Definition cal_width (size : Z) : Z := content_size size - padding size * 2.
Definition cal_height (size : Z) : Z := int_mul (cal_width size) lit_0_9.
Definition cal_x (size : Z) : Z := content_x size + padding size.
Definition cal_y (size : Z) : Z :=
  content_y size + int_mul (content_size size) lit_0_15.
Definition cal_radius (size : Z) : Z := int_mul size lit_0_04.

Definition header_height (size : Z) : Z := int_mul (cal_height size) lit_0_2.

Definition dot_size (size : Z) : Z := int_mul (cal_width size) lit_0_08.
Definition dot_spacing (size : Z) : Z := cal_width size / 4.
Definition start_x (size : Z) : Z :=
  cal_x size + int_mul (dot_spacing size) lit_0_7.
Definition start_y (size : Z) : Z :=
  cal_y size + int_mul (cal_height size) lit_0_4.

(** Bottom edge of the dots of the third row, and of the calendar body. *)
Definition third_row_bottom (size : Z) : Z :=
  start_y size + dot_spacing size * 2 + dot_size size.
Definition body_bottom (size : Z) : Z := cal_y size + cal_height size.

(** A coordinate [c] lies in [[0.2 * size, 0.8 * size]]. *)
Definition coord_in_safe_zone (size c : Z) : bool :=
  (size <=? 5 * c) && (5 * c <=? 4 * size).

(** ** Colours, boxes, shapes *)

Definition color : Type := Z * Z * Z.

Definition white : color := (255, 255, 255).
Definition black : color := (0, 0, 0).
Definition body_gray : color := (242, 242, 242).
Definition purple_a : color := (102, 110, 234).
Definition purple_b : color := (118, 75, 162).

(** A bounding box [[(x0, y0), (x1, y1)]], both corners included. *)
Record box : Type := Box { bx0 : Z; by0 : Z; bx1 : Z; by1 : Z }.

Definition in_box (b : box) (px py : Z) : bool :=
  (bx0 b <=? px) && (px <=? bx1 b) && (by0 b <=? py) && (py <=? by1 b).

Definition box_in_safe_zone (size : Z) (b : box) : bool :=
  coord_in_safe_zone size (bx0 b) && coord_in_safe_zone size (bx1 b) &&
  coord_in_safe_zone size (by0 b) && coord_in_safe_zone size (by1 b).

(** The drawing calls the script makes on an [ImageDraw]. *)
Inductive shape : Type :=
| Line (b : box)
| RoundedRectangle (b : box) (radius : Z)
| Ellipse (b : box).

Definition shape_box (s : shape) : box :=
  match s with
  | Line b | RoundedRectangle b _ | Ellipse b => b
  end.

(** ** The Pillow interface *)

(** Which pixels a filled [rounded_rectangle] and a filled [ellipse] paint,
    and how an RGB image is encoded as PNG. *)
Class Pillow : Type := {
  rounded_rectangle_covers : box → Z → Z → Z → bool;
  ellipse_covers : box → Z → Z → bool;
  png_encode : list (list color) → list Z
}.

(** [draw.line] is only ever called on a horizontal segment with the default
    width, which paints the pixels of that row between the end points. *)
Definition line_covers (b : box) (px py : Z) : bool :=
  (by0 b =? by1 b) && in_box b px py.

Definition covers `{P : Pillow} (s : shape) (px py : Z) : bool :=
  match s with
  | Line b => line_covers b px py
  | RoundedRectangle b r => rounded_rectangle_covers b r px py
  | Ellipse b => ellipse_covers b px py
  end.

(** What the development assumes of Pillow's rasteriser. *)
Record PillowLaws (P : Pillow) : Prop := {
  (** nothing is painted outside the bounding box; *)
  rr_in_box : ∀ b r px py,
    rounded_rectangle_covers b r px py = true → in_box b px py = true;
  ell_in_box : ∀ b px py,
    ellipse_covers b px py = true → in_box b px py = true;
  (** the columns and the rows between the corner arcs are painted in full
      (the rectangles [rounded_rectangle] fills besides its four corners); *)
  rr_columns : ∀ b r px py, 0 ≤ r →
    bx0 b + r < px < bx1 b - r → by0 b ≤ py ≤ by1 b →
    rounded_rectangle_covers b r px py = true;
  rr_rows : ∀ b r px py, 0 ≤ r →
    by0 b + r < py < by1 b - r → bx0 b ≤ px ≤ bx1 b →
    rounded_rectangle_covers b r px py = true;
  (** with a radius of at least one pixel and four separate corner arcs,
      the corner pixels of the bounding box stay unpainted. *)
  rr_corners : ∀ b r px py, 1 ≤ r →
    2 * r + 2 ≤ bx1 b - bx0 b → 2 * r + 2 ≤ by1 b - by0 b →
    (px = bx0 b ∨ px = bx1 b) → (py = by0 b ∨ py = by1 b) →
    rounded_rectangle_covers b r px py = false
}.


(** An idealised rasteriser: a pixel is painted when its centre lies in the
    mathematical shape, except that an ellipse on a single-point box paints
    nothing.  The arcs are the geometric ones; the pixels Pillow gives an
    arc can differ from them by a pixel or two at a corner.  The instance
    shows that the laws can be met and serves for concrete evaluation; the
    theorems rest on the laws alone. *)
Definition ideal_ellipse (b : box) (px py : Z) : bool :=
  let w := bx1 b - bx0 b in
  let h := by1 b - by0 b in
  let u := 2 * px - bx0 b - bx1 b in
  let v := 2 * py - by0 b - by1 b in
  negb ((w =? 0) && (h =? 0)) && in_box b px py &&
  (u * u * (h * h) + v * v * (w * w) <=? w * w * (h * h)).

(** The rectangle with quarter discs cut to its corners; the radius is
    clamped to half the shorter side. *)
Definition ideal_rounded_region (b : box) (radius px py : Z) : bool :=
  let r := Z.max 0 (Z.min radius
             (Z.min ((bx1 b - bx0 b) / 2) ((by1 b - by0 b) / 2))) in
  let dx := Z.max 0 (Z.max (bx0 b + r - px) (px - (bx1 b - r))) in
  let dy := Z.max 0 (Z.max (by0 b + r - py) (py - (by1 b - r))) in
  in_box b px py && (dx * dx + dy * dy <=? r * r).

(** [rounded_rectangle] with its dispatch: when the diameter reaches the
    width less one the left and right arcs are joined and the diameter
    becomes the width, likewise for the height, and a box with all four
    arcs joined is drawn by [ellipse]. *)
Definition ideal_rounded_rectangle (b : box) (radius px py : Z) : bool :=
  let w := bx1 b - bx0 b in
  let h := by1 b - by0 b in
  let full_x := w - 1 <=? 2 * radius in
  let d := if full_x then w else 2 * radius in
  let full_y := h - 1 <=? d in
  if full_x && full_y then ideal_ellipse b px py
  else ideal_rounded_region b radius px py.

(** A stand-in for the PNG encoder: the dimensions followed by the channel
    values in row order. *)
Definition raw_encode (img : list (list color)) : list Z :=
  Z.of_nat (length img) ::
  flat_map (λ row, Z.of_nat (length row) ::
                   flat_map (λ c : color, [c.1.1; c.1.2; c.2]) row) img.

Definition ideal_pillow : Pillow := {|
  rounded_rectangle_covers := ideal_rounded_rectangle;
  ellipse_covers := ideal_ellipse;
  png_encode := raw_encode
|}.

(** ** Raster images *)

(** An image is the list of its rows, top row first. *)
Abbreviation image A := (list (list A)).

(** [Image.new(mode, (w, h), fill)] *)
Definition Image_new {A} (w h : Z) (fill : A) : image A :=
  replicate (Z.to_nat h) (replicate (Z.to_nat w) fill).

Definition getpixel {A} (img : image A) (x y : Z) : option A :=
  if (0 <=? x) && (0 <=? y)
  then img !! Z.to_nat y ≫= λ row, row !! Z.to_nat x
  else None.

Definition height {A} (img : image A) : Z := Z.of_nat (length img).

(** All rows have width [w]. *)
Definition has_width {A} (w : Z) (img : image A) : Prop :=
  Forall (λ row, Z.of_nat (length row) = w) img.

(** Fill, with one ink, the pixels of the image selected by [cov]; what
    falls outside the image is clipped. *)
Definition paint {A} (cov : Z → Z → bool) (ink : A) (img : image A) : image A :=
  imap (λ y row,
          imap (λ x p, if cov (Z.of_nat x) (Z.of_nat y) then ink else p) row)
       img.

Definition draw `{P : Pillow} {A} (img : image A) (s : shape) (fill : A) : image A :=
  paint (covers s) fill img.

(** The ink a pixel ends with after the drawing calls of [l], painted in
    order over ink [p]. *)
Definition top_ink `{P : Pillow} {A} (l : list (shape * A)) (x y : Z) (p : A) : A :=
  foldl (λ c sc, if covers sc.1 x y then sc.2 else c) p l.

(** One pixel of [Image.paste(src, (0, 0), mask)] with an ['L'] mask: 255
    takes the pasted pixel, 0 keeps the destination, values in between blend
    the two. *)
Definition paste_pixel (m : Z) (s d : color) : color :=
  if m =? 255 then s
  else if m =? 0 then d
  else ((s.1.1 * m + d.1.1 * (255 - m)) / 255,
        (s.1.2 * m + d.1.2 * (255 - m)) / 255,
        (s.2 * m + d.2 * (255 - m)) / 255).

Definition paste (dst src : image color) (mask : image Z) : image color :=
  imap (λ y row,
          imap (λ x d,
                  match getpixel src (Z.of_nat x) (Z.of_nat y),
                        getpixel mask (Z.of_nat x) (Z.of_nat y) with
                  | Some s, Some m => paste_pixel m s d
                  | _, _ => d
                  end) row)
       dst.

(** ** The script *)

Section Script.
Context `{P : Pillow}.

(** lines 16-21 *)
Definition mask_shape (size radius : Z) : shape :=
  RoundedRectangle (Box 0 0 (size - 1) (size - 1)) radius.

Definition create_rounded_rectangle_mask (size radius : Z) : image Z :=
  let mask := Image_new size size 0 in
  draw mask (mask_shape size radius) 255.

(** lines 32-35 *)
Definition gradient_channel (a b : Z) (ratio : spec_float) : Z :=
  F64.to_int (F64.add (F64.of_int a) (F64.mul (F64.of_int (b - a)) ratio)).

Definition gradient_color (y size : Z) : color :=
  let ratio := F64.truediv y size in
  (gradient_channel 102 118 ratio,
   gradient_channel 110 75 ratio,
   gradient_channel 234 162 ratio).

(** lines 26-36 *)
Definition gradient_background (size : Z) : image color :=
  foldl (λ img y, draw img (Line (Box 0 y size y)) (gradient_color y size))
        (Image_new size size black)
        (seqZ 0 size).

(** The first [n] scanlines as drawing calls. *)
Definition gradient_lines (size n : Z) : list (shape * color) :=
  (λ y, (Line (Box 0 y size y), gradient_color y size)) <$> seqZ 0 n.

(** lines 39-45 *)
Definition rounded_background (size : Z) : image color :=
  let img := gradient_background size in
  let mask := create_rounded_rectangle_mask size (bg_radius size) in
  let rounded_img := Image_new size size white in
  paste rounded_img img mask.

(** lines 63-67 *)
Definition body_shape (size : Z) : shape :=
  RoundedRectangle
    (Box (cal_x size) (cal_y size)
         (cal_x size + cal_width size) (cal_y size + cal_height size))
    (cal_radius size).

(** lines 70-75 *)
Definition header_shape (size : Z) : shape :=
  RoundedRectangle
    (Box (cal_x size) (cal_y size)
         (cal_x size + cal_width size) (cal_y size + header_height size))
    (cal_radius size).

(** The dot of column [i] in row [j]: lines 85-88, 93-97, 102-106. *)
Definition dot_shape (size i j : Z) : shape :=
  let x := start_x size + i * dot_spacing size in
  let y := start_y size + dot_spacing size * j in
  Ellipse (Box (x - dot_size size) (y - dot_size size)
               (x + dot_size size) (y + dot_size size)).

Definition dot_row (size j n : Z) (fill : color) : list (shape * color) :=
  (λ i, (dot_shape size i j, fill)) <$> seqZ 0 n.

Definition dots (size : Z) : list (shape * color) :=
  dot_row size 0 3 purple_a ++ dot_row size 1 3 purple_b
    ++ dot_row size 2 2 purple_a.

(** Everything drawn after the background, in drawing order. *)
Definition calendar_content (size : Z) : list (shape * color) :=
  (body_shape size, body_gray) :: (header_shape size, white) :: dots size.

(** lines 23-109 *)
Definition draw_calendar_icon (size : Z) : image color :=
  foldl (λ img sc, draw img sc.1 sc.2)
        (rounded_background size)
        (calendar_content size).


End Script.

(** ** Running the program *)

(** What the environment decides: whether [PIL] can be imported, and whether
    a Pillow call inside [draw_calendar_icon] or [img.save] raises (with the
    text of the exception). *)
Record Env : Type := {
  pil_available : bool;
  draw_error : Z → option string;
  save_error : string → option string
}.

(** Standard output (one entry per [print]) and the files of the working
    directory. *)
Record World : Type := {
  stdout : list string;
  files : gmap string (list Z)
}.

Inductive outcome (A : Type) : Type :=
| Return (a : A)
| Raise (msg : string)
| Exit (code : Z).
Arguments Return {A} a.
Arguments Raise {A} msg.
Arguments Exit {A} code.

Definition M (A : Type) : Type := World → outcome A * World.

Global Instance M_ret : MRet M := λ A a w, (Return a, w).

Global Instance M_bind : MBind M := λ A B k m w,
  match m w with
  | (Return a, w') => k a w'
  | (Raise msg, w') => (Raise msg, w')
  | (Exit c, w') => (Exit c, w')
  end.

Definition raise {A} (msg : string) : M A := λ w, (Raise msg, w).
Definition sys_exit {A} (code : Z) : M A := λ w, (Exit code, w).

Definition print (s : string) : M unit :=
  λ w, (Return (), {| stdout := stdout w ++ [s]; files := files w |}).

Definition write_file (name : string) (data : list Z) : M unit :=
  λ w, (Return (), {| stdout := stdout w; files := <[name := data]> (files w) |}).

(** [try: body except Exception as e: handler(str(e))] *)
Definition try_except {A} (body : M A) (handler : string → M A) : M A :=
  λ w, match body w with
       | (Raise msg, w') => handler msg w'
       | r => r
       end.

Section Program.
Context `{P : Pillow} (env : Env).

Definition icon_filename (size : Z) : string :=
  "icon-" +:+ pretty size +:+ ".png".

(** [draw_calendar_icon] as a call that may raise *)
Definition call_draw_calendar_icon (size : Z) : M (image color) :=
  match draw_error env size with
  | Some msg => raise msg
  | None => mret (draw_calendar_icon size)
  end.

(** [img.save(filename, 'PNG')] *)
Definition save (img : image color) (filename : string) : M unit :=
  match save_error env filename with
  | Some msg => raise msg
  | None => write_file filename (png_encode img)
  end.

(** lines 111-117 *)
Definition generate_icon (size : Z) : M unit :=
  print ("Generating " +:+ pretty size +:+ "x" +:+ pretty size +:+ " icon...") ;;
  img ← call_draw_calendar_icon size;
  let filename := icon_filename size in
  save img filename ;;
  print ("✓ Created " +:+ filename).

Definition fallback_advice : string :=
  "Please open generate-pwa-icons.html in your browser to generate icons manually.".

(** lines 119-130 *)
Definition main : M unit :=
  print "Generating PWA icons for AuraFlow...
" ;;
  try_except
    (generate_icon 192 ;;
     generate_icon 512 ;;
     print "
✓ All PWA icons generated successfully!" ;;
     print "Icons meet PWA maskable requirements with 20% safe zone padding.")
    (λ e,
       print ("Error generating icons: " +:+ e) ;;
       print ("
Fallback: " +:+ fallback_advice) ;;
       sys_exit 1).

(** lines 9-14 followed by the rest of the module *)
Definition script : M unit :=
  if pil_available env then main
  else
    print "PIL/Pillow not available." ;;
    print fallback_advice ;;
    sys_exit 0.

(** The exit status of the interpreter and the world it leaves. *)
Definition run (w : World) : Z * World :=
  match script w with
  | (Return _, w') => (0, w')
  | (Exit c, w') => (c, w')
  | (Raise _, w') => (1, w')
  end.

(** The exception [generate_icon size] raises, if any. *)
Definition icon_error (size : Z) : option string :=
  match draw_error env size with
  | Some msg => Some msg
  | None => save_error env (icon_filename size)
  end.

(** The first exception of the main run, if any. *)
Definition first_error : option string :=
  match icon_error 192 with
  | Some msg => Some msg
  | None => icon_error 512
  end.

(** The world after a successful [generate_icon size]. *)
Definition success (w : World) (size : Z) : World :=
  {| stdout := stdout w ++
       ["Generating " +:+ pretty size +:+ "x" +:+ pretty size +:+ " icon...";
        "✓ Created " +:+ icon_filename size];
     files := <[icon_filename size := png_encode (draw_calendar_icon size)]> (files w) |}.

End Program.

(** Sample environments and the empty world. *)
Definition no_errors : Env :=
  {| pil_available := true; draw_error := λ _, None; save_error := λ _, None |}.
Definition no_pil : Env :=
  {| pil_available := false; draw_error := λ _, None; save_error := λ _, None |}.
Definition disk_full : Env :=
  {| pil_available := true; draw_error := λ _, None;
     save_error := λ f, if String.eqb f "icon-512.png" then Some "disk full" else None |}.
Definition empty_world : World := {| stdout := []; files := ∅ |}.


(** ** Further vocabulary *)

(** The lines [generate_icon] prints (lines 113 and 117). *)
Definition generating (size : Z) : string :=
  "Generating " +:+ pretty size +:+ "x" +:+ pretty size +:+ " icon...".
Definition created (size : Z) : string := "✓ Created " +:+ icon_filename size.

(** The lines of the main block (lines 120, 125-126, 128-129). *)
Definition banner : string := "Generating PWA icons for AuraFlow...
".
Definition all_generated : string := "
✓ All PWA icons generated successfully!".
Definition maskable_note : string :=
  "Icons meet PWA maskable requirements with 20% safe zone padding.".
Definition error_line (msg : string) : string := "Error generating icons: " +:+ msg.
Definition fallback_line : string := "
Fallback: " +:+ fallback_advice.

(** An environment in which every Pillow drawing call raises, as with a
    Pillow that has no [rounded_rectangle]. *)
Definition old_pillow : Env :=
  {| pil_available := true;
     draw_error := λ _, Some "'ImageDraw' object has no attribute 'rounded_rectangle'";
     save_error := λ _, None |}.

(** Two bounding boxes share no pixel. *)
Definition boxes_disjoint (b1 b2 : box) : bool :=
  (bx1 b1 <? bx0 b2) || (bx1 b2 <? bx0 b1) ||
  (by1 b1 <? by0 b2) || (by1 b2 <? by0 b1).

(** The four fixed colours of the icon. *)
Definition fixed_colours : list color := [white; body_gray; purple_a; purple_b].

(** The layout in integer arithmetic: what each [int(n * c)] of the script
    comes to, as established by [layout_is_exact] below. *)
Record layout_exact (size : Z) : Prop := {
  le_safe_zone : safe_zone size = size / 5;
  le_content_size : content_size size = size - size / 5 * 2;
  le_padding : padding size = content_size size / 5;
  le_cal_width : cal_width size = content_size size - content_size size / 5 * 2;
  le_cal_height : cal_height size = 9 * cal_width size / 10;
  le_cal_x : cal_x size = size / 5 + content_size size / 5;
  le_cal_y : cal_y size = size / 5 + 3 * content_size size / 20;
  le_cal_radius : cal_radius size = size / 25;
  le_header_height : header_height size = 2 * cal_height size / 10;
  le_dot_size : dot_size size = 2 * cal_width size / 25;
  le_dot_spacing : dot_spacing size = cal_width size / 4;
  le_start_x : cal_x size + 7 * dot_spacing size / 10 - 1 ≤ start_x size
               ≤ cal_x size + 7 * dot_spacing size / 10;
  le_start_x_exact : dot_spacing size mod 10 ≠ 0 →
               start_x size = cal_x size + 7 * dot_spacing size / 10;
  le_start_y : start_y size = cal_y size + 2 * cal_height size / 5;
  le_bg_radius : bg_radius size = 3 * size / 20
}.

(* ===================================================================== *)
(** * Part II: binary64 arithmetic                                         *)
(* ===================================================================== *)


(** ** Binary digits *)

Lemma digits2_pos_size p : digits2_pos p = Pos.size p.
Proof. induction p; simpl; congruence. Qed.

Lemma digits_pos_log2 p : digits (Z.pos p) = Z.log2 (Z.pos p) + 1.
Proof.
  unfold digits; simpl. rewrite digits2_pos_size.
  destruct p; simpl; lia.
Qed.

Lemma digits_bounds n : 0 < n → 2 ^ (digits n - 1) ≤ n < 2 ^ digits n.
Proof.
  intros Hn. destruct n as [|p|p]; try lia.
  rewrite digits_pos_log2.
  replace (Z.log2 (Z.pos p) + 1 - 1) with (Z.log2 (Z.pos p)) by lia.
  replace (Z.log2 (Z.pos p) + 1) with (Z.succ (Z.log2 (Z.pos p))) by lia.
  apply Z.log2_spec; lia.
Qed.

Lemma digits_unique n d : 2 ^ (d - 1) ≤ n < 2 ^ d → 0 < n → digits n = d.
Proof.
  intros H Hn. destruct n as [|p|p]; try lia.
  rewrite digits_pos_log2.
  assert (0 <= d - 1).
  { destruct (Z.le_gt_cases 0 (d - 1)); [done|].
    assert (d ≤ 0) by lia.
    assert (2 ^ d ≤ 2 ^ 0) by (destruct (Z.lt_ge_cases d 0);
      [rewrite Z.pow_neg_r by lia; simpl; lia | apply Z.pow_le_mono_r; lia]).
    simpl in *; lia. }
  rewrite (Z.log2_unique (Z.pos p) (d - 1)); [lia|lia|].
  replace (Z.succ (d - 1)) with d by lia. done.
Qed.

Lemma digits_pos n : 0 < n → 0 < digits n.
Proof. destruct n; simpl; lia. Qed.

Lemma digits_mul_pow2 n k : 0 < n → 0 ≤ k → digits (n * 2 ^ k) = digits n + k.
Proof.
  intros Hn Hk. pose proof (digits_bounds n Hn) as [Hl Hu].
  pose proof (digits_pos n Hn).
  apply digits_unique; [|nia].
  replace (digits n + k - 1) with ((digits n - 1) + k) by lia.
  rewrite !Z.pow_add_r by lia.
  assert (0 < 2 ^ k) by (apply Z.pow_pos_nonneg; lia).
  nia.
Qed.

(** ** Round to nearest even on rationals *)

Lemma rne_lower n d k : 0 < d → (2 * k - 1) * d < 2 * n → k ≤ rne n d.
Proof.
  intros Hd H. unfold rne.
  pose proof (Z.div_mod n d ltac:(lia)) as E.
  pose proof (Z.mod_pos_bound n d Hd) as B.
  destruct (Z.compare_spec (2 * (n mod d)) d); [destruct (Z.even (n / d))|..]; nia.
Qed.

Lemma rne_upper n d k : 0 < d → 2 * n < (2 * k + 1) * d → rne n d ≤ k.
Proof.
  intros Hd H. unfold rne.
  pose proof (Z.div_mod n d ltac:(lia)) as E.
  pose proof (Z.mod_pos_bound n d Hd) as B.
  destruct (Z.compare_spec (2 * (n mod d)) d); [destruct (Z.even (n / d))|..]; nia.
Qed.

Lemma rne_exact k d : 0 < d → rne (k * d) d = k.
Proof.
  intros Hd. apply Z.le_antisymm; [apply rne_upper | apply rne_lower]; nia.
Qed.

Lemma rne_1 n : rne n 1 = n.
Proof. rewrite <- (Z.mul_1_r n) at 1. apply rne_exact; lia. Qed.

Lemma rne_scale a n d : 0 < a → 0 < d → rne (a * n) (a * d) = rne n d.
Proof.
  intros Ha Hd. unfold rne.
  rewrite Z.mul_mod_distr_l by lia. rewrite Z.div_mul_cancel_l by lia.
  replace (2 * (a * (n mod d))) with (a * (2 * (n mod d))) by lia.
  rewrite <- Zmult_compare_compat_l by lia. done.
Qed.

Lemma rne_mono n1 n2 d : 0 < d → n1 ≤ n2 → rne n1 d ≤ rne n2 d.
Proof.
  intros Hd Hn.
  destruct (Z.le_gt_cases (rne n1 d) (rne n2 d)) as [|Hgt]; [done|exfalso].
  (* rne n2 d < rne n1 d *)
  assert (H1 : (2 * rne n1 d - 1) * d ≤ 2 * n1).
  { destruct (Z.lt_ge_cases (2 * n1) ((2 * rne n1 d - 1) * d)); [|lia].
    assert (rne n1 d ≤ rne n1 d - 1); [|lia].
    apply rne_upper; [done|]. lia. }
  assert (H2 : 2 * n2 ≤ (2 * rne n2 d + 1) * d).
  { destruct (Z.lt_ge_cases ((2 * rne n2 d + 1) * d) (2 * n2)); [|lia].
    assert (rne n2 d + 1 ≤ rne n2 d); [|lia].
    apply rne_lower; [done|]. lia. }
  assert (rne n1 d = rne n2 d + 1) by nia.
  assert (2 * n1 = (2 * rne n1 d - 1) * d) by nia.
  assert (2 * n2 = (2 * rne n2 d + 1) * d) by nia.
  assert (n1 = n2) by nia. subst n2. lia.
Qed.

(** ** Shifting a mantissa right *)

Lemma shr_1_rec_of n d : 0 ≤ n → 0 < d → shr_1 (rec_of n d) = rec_of n (2 * d).
Proof.
  intros Hn Hd. unfold rec_of, shr_1.
  pose proof (Z.div_mod n d ltac:(lia)) as E.
  pose proof (Z.mod_pos_bound n d Hd) as B.
  assert (Hq : 0 ≤ n / d) by (apply Z.div_pos; lia).
  set (q := n / d) in *. set (r := n mod d) in *.
  assert (Hdiv : ∀ q' b, q = 2 * q' + b → 0 ≤ b < 2 →
            q' = n / (2 * d) ∧ b * d + r = n mod (2 * d)).
  { intros q' b Hqb Hb.
    apply (Z.div_mod_unique (2 * d) q' (n / (2 * d)) (b * d + r) (n mod (2 * d))).
    - left. nia.
    - left. apply Z.mod_pos_bound. lia.
    - rewrite <- Z.div_mod by lia. nia. }
  destruct q as [|[p|p|]|p] eqn:Eq; try lia.
  - destruct (Hdiv 0 0 ltac:(lia) ltac:(lia)) as [<- <-]. f_equal.
    + symmetry. apply Z.leb_gt. lia.
    + destruct (Z.leb_spec d (2 * r)), (Z.eqb_spec r 0), (Z.eqb_spec (2 * r) d),
        (Z.eqb_spec (0 * d + r) 0), (Z.eqb_spec (2 * (0 * d + r)) (2 * d)); simpl; try lia; done.
  - destruct (Hdiv (Z.pos p) 1 ltac:(lia) ltac:(lia)) as [<- <-]. f_equal.
    + symmetry. apply Z.leb_le. lia.
    + destruct (Z.leb_spec d (2 * r)), (Z.eqb_spec r 0), (Z.eqb_spec (2 * r) d),
        (Z.eqb_spec (1 * d + r) 0), (Z.eqb_spec (2 * (1 * d + r)) (2 * d)); simpl; try lia; done.
  - destruct (Hdiv (Z.pos p) 0 ltac:(lia) ltac:(lia)) as [<- <-]. f_equal.
    + symmetry. apply Z.leb_gt. lia.
    + destruct (Z.leb_spec d (2 * r)), (Z.eqb_spec r 0), (Z.eqb_spec (2 * r) d),
        (Z.eqb_spec (0 * d + r) 0), (Z.eqb_spec (2 * (0 * d + r)) (2 * d)); simpl; try lia; done.
  - destruct (Hdiv 0 1 ltac:(lia) ltac:(lia)) as [<- <-]. f_equal.
    + symmetry. apply Z.leb_le. lia.
    + destruct (Z.leb_spec d (2 * r)), (Z.eqb_spec r 0), (Z.eqb_spec (2 * r) d),
        (Z.eqb_spec (1 * d + r) 0), (Z.eqb_spec (2 * (1 * d + r)) (2 * d)); simpl; try lia; done.
Qed.

Lemma iter_shr_1_rec_of p n d :
  0 ≤ n → 0 < d →
  SpecFloat.iter_pos shr_1 p (rec_of n d) = rec_of n (d * 2 ^ Z.pos p).
Proof.
  intros Hn. revert d. induction p as [p IH|p IH|]; intros d Hd;
    cbn [SpecFloat.iter_pos].
  - assert (E : 2 ^ Z.pos p~1 = 2 * (2 ^ Z.pos p * 2 ^ Z.pos p)).
    { rewrite <- Z.pow_add_r, <- Z.pow_succ_r by lia. f_equal. lia. }
    assert (0 < 2 ^ Z.pos p) by (apply Z.pow_pos_nonneg; lia).
    rewrite shr_1_rec_of, !IH by nia. f_equal. rewrite E. lia.
  - assert (E : 2 ^ Z.pos p~0 = 2 ^ Z.pos p * 2 ^ Z.pos p).
    { rewrite <- Z.pow_add_r by lia. f_equal. lia. }
    assert (0 < 2 ^ Z.pos p) by (apply Z.pow_pos_nonneg; lia).
    rewrite !IH by nia. f_equal. rewrite E. lia.
  - rewrite shr_1_rec_of by done. f_equal. change (2 ^ 1) with 2. lia.
Qed.

Lemma shr_rec_of n d e k :
  0 ≤ n → 0 < d →
  shr (rec_of n d) e k = (rec_of n (d * 2 ^ Z.max 0 k), e + Z.max 0 k).
Proof.
  intros Hn Hd. unfold shr. destruct k as [|p|p].
  - simpl Z.max. rewrite Z.mul_1_r, Z.add_0_r. done.
  - rewrite iter_shr_1_rec_of by done. rewrite Z.max_r by lia. done.
  - rewrite Z.max_l by lia. simpl. rewrite Z.mul_1_r, Z.add_0_r. done.
Qed.

Lemma rec_of_exact m : shr_record_of_loc m loc_Exact = rec_of m 1.
Proof.
  unfold rec_of. rewrite Z.div_1_r, Z.mod_1_r. done.
Qed.

Lemma round_rec_of n d :
  0 < d →
  round_nearest_even (shr_m (rec_of n d)) (loc_of_shr_record (rec_of n d)) = rne n d.
Proof.
  intros Hd. unfold rec_of, rne, loc_of_shr_record, round_nearest_even; simpl.
  pose proof (Z.mod_pos_bound n d Hd) as B.
  destruct (Z.compare_spec (2 * (n mod d)) d), (Z.leb_spec d (2 * (n mod d))),
    (Z.eqb_spec (n mod d) 0), (Z.eqb_spec (2 * (n mod d)) d); simpl; try lia; done.
Qed.

(** ** Rounding a mantissa to 53 bits *)

Lemma fexp_normal e : -1074 ≤ e - 53 → fexp 53 1024 e = e - 53.
Proof. unfold fexp, emin. lia. Qed.

Lemma rne_pow2_bounds n d p m :
  0 < d → 0 ≤ p → n / d = m → 2 ^ (p + 52) ≤ m < 2 ^ (p + 53) →
  2 ^ 52 ≤ rne n (d * 2 ^ p) ≤ 2 ^ 53.
Proof.
  intros Hd Hp Hm [Hl Hu].
  assert (Hpp : 0 < 2 ^ p) by (apply Z.pow_pos_nonneg; lia).
  rewrite Z.pow_add_r in Hl, Hu by lia.
  pose proof (Z.div_mod n d ltac:(lia)) as E.
  pose proof (Z.mod_pos_bound n d Hd) as B.
  rewrite Hm in E.
  split; [apply rne_lower | apply rne_upper]; nia.
Qed.

Lemma binary_round_aux_normal s n d mx lx ex :
  0 < d → 0 ≤ n → shr_record_of_loc mx lx = rec_of n d → n / d = mx →
  53 ≤ digits mx → -1074 ≤ digits mx + ex - 53 → digits mx + ex ≤ 1023 →
  binary_round_aux 53 1024 s mx ex lx =
    let p := digits mx - 53 in
    let M := rne n (d * 2 ^ p) in
    if M <? 2 ^ 53 then S754_finite s (Z.to_pos M) (ex + p)
    else S754_finite s (Z.to_pos (2 ^ 52)) (ex + p + 1).
Proof.
  intros Hd Hn Hrec Hmx Hdg Hlo Hhi.
  assert (Hmx0 : 0 < mx).
  { assert (0 ≤ mx) by (subst mx; apply Z.div_pos; lia).
    destruct mx as [|q|q]; simpl in Hdg; lia. }
  pose proof (digits_bounds mx Hmx0) as Bmx.
  set (p := digits mx - 53). set (M := rne n (d * 2 ^ p)). cbv zeta.
  assert (HM : 2 ^ 52 ≤ M ≤ 2 ^ 53).
  { apply (rne_pow2_bounds n d p mx); try done; try lia.
    unfold p. replace (digits mx - 53 + 52) with (digits mx - 1) by lia.
    replace (digits mx - 53 + 53) with (digits mx) by lia. done. }
  unfold binary_round_aux, shr_fexp. fold (digits mx).
  rewrite Hrec, fexp_normal by lia.
  replace (digits mx + ex - 53 - ex) with p by (unfold p; lia).
  rewrite shr_rec_of by done. rewrite Z.max_r by (unfold p; lia).
  rewrite round_rec_of by (apply Z.mul_pos_pos; [done | apply Z.pow_pos_nonneg; unfold p; lia]).
  fold M. rewrite rec_of_exact.
  destruct (Z.ltb_spec M (2 ^ 53)) as [Hlt|Hge].
  - assert (HdM : digits M = 53) by (apply digits_unique; simpl; lia).
    fold (digits M). rewrite HdM, fexp_normal by (unfold p; lia).
    replace (53 + (ex + p) - 53 - (ex + p)) with 0 by lia.
    rewrite shr_rec_of by lia. simpl Z.max. cbn [shr_m rec_of].
    rewrite Z.mul_1_r, Z.div_1_r, Z.add_0_r.
    destruct M as [|q|q]; try (simpl in HM; lia).
    rewrite (proj2 (Z.leb_le _ _)) by (unfold p; simpl; lia). done.
  - assert (M = 2 ^ 53) by lia.
    assert (HdM : digits M = 54) by (apply digits_unique; simpl; lia).
    fold (digits M). rewrite HdM, fexp_normal by (unfold p; lia).
    replace (54 + (ex + p) - 53 - (ex + p)) with 1 by lia.
    rewrite shr_rec_of by lia. cbn [shr_m rec_of].
    rewrite H. rewrite (proj2 (Z.leb_le _ _)) by (unfold p; simpl; lia).
    reflexivity.
Qed.

(** ** Conversions and products *)

Lemma iter_xO_pow2 k p : Z.pos (Pos.iter xO p k) = Z.pos p * 2 ^ Z.pos k.
Proof.
  induction k as [|k IH] using Pos.peano_ind.
  - simpl. lia.
  - rewrite Pos.iter_succ, Pos2Z.inj_xO, IH, Pos2Z.inj_succ, Z.pow_succ_r by lia. lia.
Qed.

Lemma of_int_pos n :
  1 ≤ n < 2 ^ 53 →
  F64.of_int n = S754_finite false (Z.to_pos (n * 2 ^ (53 - digits n))) (digits n - 53).
Proof.
  intros [Hn Hu]. destruct n as [|p|p]; try lia.
  pose proof (digits_bounds (Z.pos p) ltac:(lia)) as [Bl Bu].
  pose proof (digits_pos (Z.pos p) ltac:(lia)) as Hd0.
  assert (Hd : digits (Z.pos p) ≤ 53).
  { destruct (Z.le_gt_cases (digits (Z.pos p)) 53); [done|].
    assert (2 ^ 53 ≤ 2 ^ (digits (Z.pos p) - 1)) by (apply Z.pow_le_mono_r; lia). lia. }
  unfold F64.of_int, binary_normalize, binary_round, F64.prec, F64.emax.
  change (Z.pos (digits2_pos p)) with (digits (Z.pos p)).
  rewrite Z.add_0_r, fexp_normal by lia.
  set (d := digits (Z.pos p)) in *.
  assert (Hsh : ∃ mz, shl_align p 0 (d - 53) = (mz, d - 53) ∧
                      Z.pos mz = Z.pos p * 2 ^ (53 - d)).
  { unfold shl_align. rewrite Z.sub_0_r.
    destruct (d - 53) as [|k|k] eqn:Ek; try lia.
    - exists p. replace (53 - d) with 0 by lia. split; [done | lia].
    - exists (Pos.iter xO p k). split; [done|].
      rewrite iter_xO_pow2. do 2 f_equal. lia. }
  destruct Hsh as (mz & -> & Hmz).
  assert (Hdz : digits (Z.pos mz) = 53).
  { rewrite Hmz, digits_mul_pow2 by lia. fold d. lia. }
  rewrite (binary_round_aux_normal false (Z.pos mz) 1 (Z.pos mz) loc_Exact (d - 53));
    try lia.
  - rewrite Hdz. cbv zeta. replace (53 - 53) with 0 by lia.
    rewrite Z.mul_1_l. change (2 ^ 0) with 1. rewrite rne_1, Z.add_0_r.
    pose proof (digits_bounds (Z.pos mz) ltac:(lia)) as B. rewrite Hdz in B.
    rewrite (proj2 (Z.ltb_lt _ _)) by lia.
    rewrite <- Hmz. done.
  - apply rec_of_exact.
  - apply Z.div_1_r.
Qed.

Lemma to_int_finite_shift m e k :
  0 ≤ k → e ≤ 0 →
  F64.to_int (S754_finite false m (e + k)) = (Z.pos m * 2 ^ k) / 2 ^ (- e).
Proof.
  intros Hk He. unfold F64.to_int, cond_Zopp.
  destruct (Z.leb_spec 0 (e + k)).
  - replace k with ((e + k) + (- e)) at 2 by lia.
    rewrite (Z.pow_add_r 2 (e + k) (- e)), Z.mul_assoc by lia.
    rewrite Z.div_mul; [done|]. apply Z.pow_nonzero; lia.
  - replace (- e) with (- (e + k) + k) by lia.
    rewrite Z.pow_add_r by lia.
    rewrite Z.div_mul_cancel_r; [done|..]; apply Z.pow_nonzero; lia.
Qed.

Lemma mul_finite sx mx ex sy my ey :
  F64.mul (S754_finite sx mx ex) (S754_finite sy my ey) =
  binary_round_aux 53 1024 (xorb sx sy) (Z.pos (mx * my)) (ex + ey) loc_Exact.
Proof. reflexivity. Qed.

(** [int(n * c)] as integer arithmetic on the mantissa of [c]. *)
Lemma int_mul_eq n mc ec :
  1 ≤ n < 2 ^ 53 → digits (Z.pos mc) = 53 →
  let q := digits (n * Z.pos mc) - 53 in
  -1074 ≤ ec + q ≤ 0 →
  int_mul n (S754_finite false mc ec) =
  rne (n * Z.pos mc) (2 ^ q) / 2 ^ (- (ec + q)).
Proof.
  intros Hn Hmc q Hq.
  pose proof (digits_bounds n ltac:(lia)) as Bn.
  pose proof (digits_pos n ltac:(lia)) as Hd0.
  pose proof (digits_bounds (Z.pos mc) ltac:(lia)) as Bc. rewrite Hmc in Bc.
  assert (Hd : digits n ≤ 53).
  { destruct (Z.le_gt_cases (digits n) 53); [done|].
    assert (2 ^ 53 ≤ 2 ^ (digits n - 1)) by (apply Z.pow_le_mono_r; lia). lia. }
  set (s := 53 - digits n).
  assert (Hs : 0 < 2 ^ s) by (apply Z.pow_pos_nonneg; unfold s; lia).
  set (A := n * Z.pos mc) in *.
  assert (HA : 0 < A) by (unfold A; nia).
  pose proof (digits_bounds A HA) as BA.
  assert (Hq0 : 0 ≤ q).
  { unfold q. destruct (Z.le_gt_cases 53 (digits A)); [lia|].
    assert (2 ^ digits A ≤ 2 ^ 52) by (apply Z.pow_le_mono_r; lia).
    assert (Z.pos mc ≤ A) by (unfold A; nia).
    change (2 ^ (53 - 1)) with (2 ^ 52) in Bc. lia. }
  unfold int_mul. rewrite of_int_pos by done. fold s.
  rewrite mul_finite. simpl xorb.
  assert (Hprod : Z.pos (Z.to_pos (n * 2 ^ s) * mc) = A * 2 ^ s).
  { rewrite Pos2Z.inj_mul, Z2Pos.id by nia. unfold A. lia. }
  rewrite Hprod.
  assert (HdP : digits (A * 2 ^ s) = q + 53 + s).
  { rewrite digits_mul_pow2 by (unfold s; lia). unfold q. lia. }
  rewrite (binary_round_aux_normal false (A * 2 ^ s) 1 (A * 2 ^ s) loc_Exact);
    try lia; [| apply rec_of_exact | apply Z.div_1_r | unfold s in *; lia..].
  rewrite HdP. cbv zeta.
  replace (q + 53 + s - 53) with (s + q) by lia.
  rewrite Z.mul_1_l, Z.pow_add_r by (unfold s; lia).
  rewrite (Z.mul_comm A), rne_scale by (try apply Z.pow_pos_nonneg; lia).
  set (M := rne A (2 ^ q)).
  assert (HM : 2 ^ 52 ≤ M ≤ 2 ^ 53).
  { unfold M. rewrite <- (Z.mul_1_l (2 ^ q)).
    apply (rne_pow2_bounds A 1 q A); try lia; [apply Z.div_1_r|].
    unfold q in *. replace (digits A - 53 + 52) with (digits A - 1) by lia.
    replace (digits A - 53 + 53) with (digits A) by lia. done. }
  destruct (Z.ltb_spec M (2 ^ 53)).
  - replace (digits n - 53 + ec + (s + q)) with ((ec + q) + 0) by (unfold s; lia).
    rewrite to_int_finite_shift by lia.
    rewrite Z2Pos.id by lia. change (2 ^ 0) with 1. rewrite Z.mul_1_r. done.
  - replace (digits n - 53 + ec + (s + q) + 1) with ((ec + q) + 1) by (unfold s; lia).
    rewrite to_int_finite_shift by lia.
    rewrite Z2Pos.id by (simpl; lia). replace M with (2 ^ 53) by lia. done.
Qed.

Lemma digits_le_of_lt n k : 0 < n → 0 ≤ k → n < 2 ^ k → digits n ≤ k.
Proof.
  intros Hn Hk Hlt. pose proof (digits_bounds n Hn) as [Bl _].
  destruct (Z.le_gt_cases (digits n) k); [done|].
  assert (2 ^ k ≤ 2 ^ (digits n - 1)) by (apply Z.pow_le_mono_r; lia). lia.
Qed.

Section IntMulBounds.
Variables (n : Z) (mc : positive) (ec : Z).
Hypothesis Hn : 1 ≤ n < 2 ^ 31.
Hypothesis Hmc : digits (Z.pos mc) = 53.
Hypothesis Hec : -1000 ≤ ec ≤ -31.

Local Lemma int_mul_range :
  let A := n * Z.pos mc in
  let q := digits A - 53 in
  0 < A ∧ 0 ≤ q ∧ ec + q ≤ 0 ∧ 2 ^ q * 2 ^ 52 ≤ A < 2 ^ q * 2 ^ 53 ∧
  2 ^ (- (ec + q)) * 2 ^ q = 2 ^ (- ec).
Proof.
  intros A q.
  pose proof (digits_bounds (Z.pos mc) ltac:(lia)) as Bc. rewrite Hmc in Bc.
  change (2 ^ (53 - 1)) with (2 ^ 52) in Bc.
  assert (HA : 0 < A) by (unfold A; nia).
  assert (Z.pos mc ≤ A) by (unfold A; nia).
  assert (A < 2 ^ 84).
  { change (2 ^ 84) with (2 ^ 31 * 2 ^ 53). unfold A. nia. }
  pose proof (digits_le_of_lt A 84 HA ltac:(lia) ltac:(lia)).
  pose proof (digits_bounds A HA) as BA.
  assert (0 ≤ q).
  { unfold q. destruct (Z.le_gt_cases 53 (digits A)); [lia|].
    assert (2 ^ digits A ≤ 2 ^ 52) by (apply Z.pow_le_mono_r; lia). lia. }
  repeat split; try lia.
  - rewrite <- Z.pow_add_r by lia. replace (q + 52) with (digits A - 1) by (unfold q; lia). lia.
  - rewrite <- Z.pow_add_r by lia. replace (q + 53) with (digits A) by (unfold q; lia). lia.
  - rewrite <- Z.pow_add_r by (unfold q in *; lia). f_equal. lia.
Qed.

Lemma int_mul_lower j :
  2 ^ 54 * j * 2 ^ (- ec) ≤ (2 ^ 54 + 1) * (n * Z.pos mc) →
  j ≤ int_mul n (S754_finite false mc ec).
Proof.
  intros Hj. pose proof int_mul_range as Hrange. cbv zeta in Hrange.
  set (A := n * Z.pos mc) in *. set (q := digits A - 53) in *.
  destruct Hrange as (HA & Hq & Heq & [Bl Bu] & HE).
  rewrite int_mul_eq; [| lia | done | fold A q; lia].
  fold A q.
  assert (0 < 2 ^ q) by (apply Z.pow_pos_nonneg; lia).
  assert (0 < 2 ^ (- (ec + q))) by (apply Z.pow_pos_nonneg; lia).
  apply Z.div_le_lower_bound; [done|].
  apply rne_lower; [done|].
  rewrite <- HE in Hj.
  set (Pk := 2 ^ (- (ec + q))) in *. set (Pq := 2 ^ q) in *.
  change (2 ^ 54) with 18014398509481984 in Hj.
  change (2 ^ 53) with 9007199254740992 in Bu.
  nia.
Qed.

Lemma int_mul_upper j :
  (2 ^ 53 + 1) * (n * Z.pos mc) < 2 ^ 53 * (j + 1) * 2 ^ (- ec) →
  int_mul n (S754_finite false mc ec) ≤ j.
Proof.
  intros Hj. pose proof int_mul_range as Hrange. cbv zeta in Hrange.
  set (A := n * Z.pos mc) in *. set (q := digits A - 53) in *.
  destruct Hrange as (HA & Hq & Heq & [Bl Bu] & HE).
  rewrite int_mul_eq; [| lia | done | fold A q; lia].
  fold A q.
  assert (0 < 2 ^ q) by (apply Z.pow_pos_nonneg; lia).
  assert (0 < 2 ^ (- (ec + q))) by (apply Z.pow_pos_nonneg; lia).
  assert (HR : rne A (2 ^ q) ≤ 2 ^ (- (ec + q)) * (j + 1) - 1).
  { apply rne_upper; [done|].
    rewrite <- HE in Hj.
    set (Pk := 2 ^ (- (ec + q))) in *. set (Pq := 2 ^ q) in *.
    change (2 ^ 53) with 9007199254740992 in Hj.
    change (2 ^ 52) with 4503599627370496 in Bl.
    nia. }
  apply Z.lt_succ_r. apply Z.div_lt_upper_bound; [done|]. lia.
Qed.

End IntMulBounds.

(** ** The literals of the script *)

Lemma lit_0_2_eq : lit_0_2 = S754_finite false 7205759403792794 (-55).
Proof. reflexivity. Qed.
Lemma lit_0_15_eq : lit_0_15 = S754_finite false 5404319552844595 (-55).
Proof. reflexivity. Qed.
Lemma lit_0_9_eq : lit_0_9 = S754_finite false 8106479329266893 (-53).
Proof. reflexivity. Qed.
Lemma lit_0_04_eq : lit_0_04 = S754_finite false 5764607523034235 (-57).
Proof. reflexivity. Qed.
Lemma lit_0_08_eq : lit_0_08 = S754_finite false 5764607523034235 (-56).
Proof. reflexivity. Qed.
Lemma lit_0_7_eq : lit_0_7 = S754_finite false 6305039478318694 (-53).
Proof. reflexivity. Qed.
Lemma lit_0_4_eq : lit_0_4 = S754_finite false 7205759403792794 (-54).
Proof. reflexivity. Qed.

Ltac pow_numerals :=
  repeat match goal with
  | |- context [2 ^ Z.pos ?p] =>
      let v := eval vm_compute in (2 ^ Z.pos p) in change (2 ^ Z.pos p) with v
  | H : context [2 ^ Z.pos ?p] |- _ =>
      let v := eval vm_compute in (2 ^ Z.pos p) in change (2 ^ Z.pos p) with v in H
  | |- context [- Z.neg ?p] => change (- Z.neg p) with (Z.pos p)
  end.

Ltac int_mul_exact :=
  apply Z.le_antisymm;
  [ apply int_mul_upper | apply int_mul_lower ];
  try reflexivity; try (pow_numerals; Z.div_mod_to_equations; lia).

Lemma int_mul_0 c : (∃ m e, c = S754_finite false m e) → int_mul 0 c = 0.
Proof. intros (m & e & ->). reflexivity. Qed.

Lemma int_mul_0_2 n : 0 ≤ n < 2 ^ 31 → int_mul n lit_0_2 = n / 5.
Proof.
  intros Hn. destruct (Z.eq_dec n 0) as [->|]; [reflexivity|].
  rewrite lit_0_2_eq. int_mul_exact.
Qed.

Lemma int_mul_0_15 n : 0 ≤ n < 2 ^ 31 → int_mul n lit_0_15 = 3 * n / 20.
Proof.
  intros Hn. destruct (Z.eq_dec n 0) as [->|]; [reflexivity|].
  rewrite lit_0_15_eq. int_mul_exact.
Qed.

Lemma int_mul_0_9 n : 0 ≤ n < 2 ^ 31 → int_mul n lit_0_9 = 9 * n / 10.
Proof.
  intros Hn. destruct (Z.eq_dec n 0) as [->|]; [reflexivity|].
  rewrite lit_0_9_eq. int_mul_exact.
Qed.

Lemma int_mul_0_04 n : 0 ≤ n < 2 ^ 31 → int_mul n lit_0_04 = n / 25.
Proof.
  intros Hn. destruct (Z.eq_dec n 0) as [->|]; [reflexivity|].
  rewrite lit_0_04_eq. int_mul_exact.
Qed.

Lemma int_mul_0_08 n : 0 ≤ n < 2 ^ 31 → int_mul n lit_0_08 = 2 * n / 25.
Proof.
  intros Hn. destruct (Z.eq_dec n 0) as [->|]; [reflexivity|].
  rewrite lit_0_08_eq. int_mul_exact.
Qed.

Lemma int_mul_0_4 n : 0 ≤ n < 2 ^ 31 → int_mul n lit_0_4 = 2 * n / 5.
Proof.
  intros Hn. destruct (Z.eq_dec n 0) as [->|]; [reflexivity|].
  rewrite lit_0_4_eq. int_mul_exact.
Qed.

(** 0.7 is the one literal whose binary64 value lies far enough below the
    decimal for the product to fall short of an exact multiple:
    [int(90 * 0.7)] is 62. *)
Lemma int_mul_0_7 n :
  0 ≤ n < 2 ^ 31 → 7 * n / 10 - 1 ≤ int_mul n lit_0_7 ≤ 7 * n / 10.
Proof.
  intros Hn. destruct (Z.eq_dec n 0) as [->|]; [vm_compute; split; discriminate|].
  rewrite lit_0_7_eq. split; [apply int_mul_lower | apply int_mul_upper];
    try reflexivity; try (pow_numerals; Z.div_mod_to_equations; lia).
Qed.

Lemma int_mul_0_7_exact n :
  0 ≤ n < 2 ^ 31 → n mod 10 ≠ 0 → int_mul n lit_0_7 = 7 * n / 10.
Proof.
  intros Hn Hmod. assert (n ≠ 0) by (intros ->; apply Hmod; reflexivity).
  rewrite lit_0_7_eq. int_mul_exact.
Qed.

Example int_mul_0_7_90 : int_mul 90 lit_0_7 = 62.
Proof. reflexivity. Qed.


Lemma fval_bounds f s R g : fval f s R g → 2 ^ 52 ≤ R ≤ 2 ^ 53.
Proof.
  intros (m & e & _ & Hge & HR & Hd & Hu). split; [|done].
  pose proof (digits_bounds (Z.pos m) ltac:(lia)) as [Bl _]. rewrite Hd in Bl.
  change (2 ^ (53 - 1)) with (2 ^ 52) in Bl.
  assert (0 < 2 ^ (e - g)) by (apply Z.pow_pos_nonneg; lia). nia.
Qed.

Lemma rne_err n d : 0 < d → - d ≤ 2 * (rne n d * d - n) ≤ d.
Proof.
  intros Hd. unfold rne.
  pose proof (Z.div_mod n d ltac:(lia)) as E.
  pose proof (Z.mod_pos_bound n d Hd) as B.
  destruct (Z.compare_spec (2 * (n mod d)) d); [destruct (Z.even (n / d))|..]; nia.
Qed.

Lemma binary_round_aux_val s n d mx lx ex :
  0 < d → 0 ≤ n → shr_record_of_loc mx lx = rec_of n d → n / d = mx →
  53 ≤ digits mx → -1074 ≤ digits mx + ex - 53 → digits mx + ex ≤ 1023 →
  fval (binary_round_aux 53 1024 s mx ex lx) s
       (rne n (d * 2 ^ (digits mx - 53))) (ex + (digits mx - 53)).
Proof.
  intros Hd Hn Hrec Hmx Hdg Hlo Hhi.
  rewrite (binary_round_aux_normal s n d mx lx ex) by done. cbv zeta.
  assert (Hmx0 : 0 < mx).
  { assert (0 ≤ mx) by (subst mx; apply Z.div_pos; lia).
    destruct mx as [|q|q]; simpl in Hdg; lia. }
  pose proof (digits_bounds mx Hmx0) as Bmx.
  set (p := digits mx - 53) in *. set (M := rne n (d * 2 ^ p)).
  assert (HM : 2 ^ 52 ≤ M ≤ 2 ^ 53).
  { apply (rne_pow2_bounds n d p mx); try done; try lia.
    unfold p. replace (digits mx - 53 + 52) with (digits mx - 1) by lia.
    replace (digits mx - 53 + 53) with (digits mx) by lia. done. }
  destruct (Z.ltb_spec M (2 ^ 53)).
  - exists (Z.to_pos M), (ex + p). rewrite Z2Pos.id by lia.
    replace (ex + p - (ex + p)) with 0 by lia.
    repeat split; try lia; try (apply digits_unique; simpl; lia).
  - exists (Z.to_pos (2 ^ 52)), (ex + p + 1).
    replace (ex + p + 1 - (ex + p)) with 1 by lia.
    repeat split; try lia; try (simpl; lia).
Qed.

Lemma of_int_val n :
  1 ≤ n < 2 ^ 53 →
  fval (F64.of_int n) false (n * 2 ^ (53 - digits n)) (digits n - 53).
Proof.
  intros Hn. rewrite of_int_pos by done.
  pose proof (digits_bounds n ltac:(lia)) as Bn.
  pose proof (digits_pos n ltac:(lia)).
  pose proof (digits_le_of_lt n 53 ltac:(lia) ltac:(lia) ltac:(lia)).
  assert (0 < 2 ^ (53 - digits n)) by (apply Z.pow_pos_nonneg; lia).
  assert (Hd : digits (n * 2 ^ (53 - digits n)) = 53)
    by (rewrite digits_mul_pow2 by lia; lia).
  pose proof (digits_bounds (n * 2 ^ (53 - digits n)) ltac:(nia)) as B.
  rewrite Hd in B.
  eexists _, _. split; [reflexivity|]. rewrite Z2Pos.id by nia.
  replace (digits n - 53 - (digits n - 53)) with 0 by lia.
  repeat split; try lia.
Qed.

Lemma to_int_val f R g : fval f false R g → g ≤ 0 → F64.to_int f = R / 2 ^ (- g).
Proof.
  intros (m & e & -> & Hge & HR & _ & _) Hg.
  replace e with (g + (e - g)) at 1 by lia.
  rewrite to_int_finite_shift by lia. by rewrite HR.
Qed.

Lemma mul_val x sx Rx gx y sy Ry gy :
  fval x sx Rx gx → fval y sy Ry gy →
  let p := digits (Rx * Ry) - 53 in
  -1074 ≤ gx + gy + p ≤ 970 →
  fval (F64.mul x y) (xorb sx sy) (rne (Rx * Ry) (2 ^ p)) (gx + gy + p).
Proof.
  intros Hx Hy p Hr.
  pose proof (fval_bounds _ _ _ _ Hx) as Bx. pose proof (fval_bounds _ _ _ _ Hy) as By.
  destruct Hx as (mx & ex & -> & Hgx & HRx & Hdx & _).
  destruct Hy as (my & ey & -> & Hgy & HRy & Hdy & _).
  rewrite mul_finite.
  pose proof (digits_bounds (Z.pos mx) ltac:(lia)) as Bmx. rewrite Hdx in Bmx.
  pose proof (digits_bounds (Z.pos my) ltac:(lia)) as Bmy. rewrite Hdy in Bmy.
  change (2 ^ (53 - 1)) with (2 ^ 52) in *.
  set (k := (ex - gx) + (ey - gy)).
  assert (Hk : 0 < 2 ^ k) by (apply Z.pow_pos_nonneg; unfold k; lia).
  assert (HRR : Rx * Ry = Z.pos (mx * my) * 2 ^ k).
  { unfold k. rewrite Z.pow_add_r, Pos2Z.inj_mul by lia. subst Rx Ry. ring. }
  assert (Hdp : digits (Rx * Ry) = digits (Z.pos (mx * my)) + k).
  { rewrite HRR. apply digits_mul_pow2; unfold k; lia. }
  assert (Hd53 : 53 ≤ digits (Z.pos (mx * my))).
  { destruct (Z.le_gt_cases 53 (digits (Z.pos (mx * my)))); [done|].
    pose proof (digits_bounds (Z.pos (mx * my)) ltac:(lia)) as [_ Bu].
    assert (2 ^ digits (Z.pos (mx * my)) ≤ 2 ^ 52) by (apply Z.pow_le_mono_r; lia).
    rewrite Pos2Z.inj_mul in *.
    assert (2 ^ 52 * 1 ≤ Z.pos mx * Z.pos my) by (apply Z.mul_le_mono_nonneg; lia).
    lia. }
  pose proof (binary_round_aux_val (xorb sx sy) (Z.pos (mx * my)) 1
                (Z.pos (mx * my)) loc_Exact (ex + ey)) as H.
  unfold p in *. rewrite Hdp in *.
  set (p0 := digits (Z.pos (mx * my)) - 53) in *.
  replace (digits (Z.pos (mx * my)) + k - 53) with (k + p0) in * by (unfold p0; lia).
  replace (gx + gy + (k + p0)) with (ex + ey + p0) in * by (unfold k; lia).
  rewrite HRR, Z.pow_add_r by (unfold p0; lia).
  rewrite (Z.mul_comm _ (2 ^ k)), rne_scale
    by (try done; apply Z.pow_pos_nonneg; unfold p0; lia).
  rewrite Z.mul_1_l in H. apply H; try lia.
  - apply rec_of_exact.
  - apply Z.div_1_r.
Qed.


(** ** Division *)

Lemma new_location_rec q d r :
  0 < d → 0 ≤ r < d →
  shr_record_of_loc q (new_location d r) = rec_of (q * d + r) d.
Proof.
  intros Hd Hr. unfold rec_of.
  rewrite Z.div_add_l, Z.div_small, Z.add_0_r by lia.
  rewrite Z.add_comm, Z.mod_add, Z.mod_small by lia.
  assert (Hloc : new_location d r =
                 if r =? 0 then loc_Exact else loc_Inexact (2 * r ?= d)).
  { unfold new_location, new_location_even, new_location_odd.
    destruct (Z.even d) eqn:Ev; [done|].
    destruct (Z.eqb_spec r 0); [done|]. f_equal.
    assert (2 * r ≠ d) by (intros <-; rewrite Z.even_mul in Ev; discriminate).
    destruct (Z.compare_spec (2 * r + 1) d), (Z.compare_spec (2 * r) d);
      try lia; done. }
  rewrite Hloc.
  destruct (Z.eqb_spec r 0) as [->|Hr0].
  - cbn [shr_record_of_loc negb andb]. f_equal.
    symmetry. apply Z.leb_gt. lia.
  - destruct (Z.compare_spec (2 * r) d), (Z.leb_spec d (2 * r)),
      (Z.eqb_spec (2 * r) d); cbn [shr_record_of_loc negb andb]; try lia; done.
Qed.

Lemma div_eucl_div_mod a b : Z.div_eucl a b = (a / b, a mod b).
Proof. unfold Z.div, Z.modulo. by destruct (Z.div_eucl a b). Qed.

Lemma div_finite mx ex my ey :
  digits (Z.pos mx) = 53 → digits (Z.pos my) = 53 →
  -1000 ≤ ex - ey ≤ 900 →
  let p := digits (Z.pos mx * 2 ^ 53 / Z.pos my) - 53 in
  fval (F64.div (S754_finite false mx ex) (S754_finite false my ey)) false
       (rne (Z.pos mx * 2 ^ 53) (Z.pos my * 2 ^ p)) (ex - ey - 53 + p).
Proof.
  intros Hdx Hdy He p.
  pose proof (digits_bounds (Z.pos mx) ltac:(lia)) as Bx. rewrite Hdx in Bx.
  pose proof (digits_bounds (Z.pos my) ltac:(lia)) as By. rewrite Hdy in By.
  change (2 ^ (53 - 1)) with (2 ^ 52) in *.
  unfold F64.div, F64.prec, F64.emax, SFdiv, SFdiv_core_binary.
  fold (digits (Z.pos mx)). fold (digits (Z.pos my)). rewrite Hdx, Hdy.
  replace (53 + ex - (53 + ey)) with (ex - ey) by lia.
  rewrite fexp_normal by lia. rewrite Z.min_l by lia.
  replace (ex - ey - (ex - ey - 53)) with 53 by lia.
  rewrite Z.shiftl_mul_pow2 by lia.
  set (N := Z.pos mx * 2 ^ 53) in *.
  rewrite div_eucl_div_mod. simpl xorb.
  assert (HN : 0 < N) by (unfold N; lia).
  pose proof (Z.div_mod N (Z.pos my) ltac:(lia)) as E.
  pose proof (Z.mod_pos_bound N (Z.pos my) ltac:(lia)) as B.
  assert (Hq : 2 ^ 52 ≤ N / Z.pos my).
  { apply Z.div_le_lower_bound; [lia|]. unfold N.
    change (2 ^ 53) with (2 * 2 ^ 52). nia. }
  assert (Hq' : N / Z.pos my < 2 ^ 54).
  { apply Z.div_lt_upper_bound; [lia|]. unfold N.
    change (2 ^ 54) with (2 * 2 ^ 53). nia. }
  assert (Hdq : 53 ≤ digits (N / Z.pos my) ≤ 54).
  { pose proof (digits_bounds (N / Z.pos my) ltac:(lia)) as [Bl Bu]. split.
    - destruct (Z.le_gt_cases 53 (digits (N / Z.pos my))); [done|].
      assert (2 ^ digits (N / Z.pos my) ≤ 2 ^ 52) by (apply Z.pow_le_mono_r; lia). lia.
    - apply digits_le_of_lt; lia. }
  pose proof (binary_round_aux_val false N (Z.pos my) (N / Z.pos my)
                (new_location (Z.pos my) (N mod Z.pos my)) (ex - ey - 53)) as H.
  fold p in H. apply H; try lia.
  rewrite new_location_rec by lia. f_equal. lia.
Qed.

Lemma digits_mono a b : 0 < a ≤ b → digits a ≤ digits b.
Proof.
  intros [Ha Hab].
  pose proof (digits_bounds a Ha) as [Bl _].
  pose proof (digits_bounds b ltac:(lia)) as [_ Bu].
  pose proof (digits_pos b ltac:(lia)).
  destruct (Z.le_gt_cases (digits a) (digits b)); [done|].
  assert (2 ^ digits b ≤ 2 ^ (digits a - 1)) by (apply Z.pow_le_mono_r; lia). lia.
Qed.

(** [y / size] for [0 < y < size]: the quotient rounded at a scale [2^-t]
    fine enough for 53 significant bits. *)
Lemma norm_mantissa_bounds n :
  1 ≤ n < 2 ^ 53 →
  digits (n * 2 ^ (53 - digits n)) = 53 ∧
  2 ^ 52 ≤ n * 2 ^ (53 - digits n) < 2 ^ 53.
Proof.
  intros Hn.
  pose proof (digits_pos n ltac:(lia)).
  pose proof (digits_le_of_lt n 53 ltac:(lia) ltac:(lia) ltac:(lia)).
  assert (0 < 2 ^ (53 - digits n)) by (apply Z.pow_pos_nonneg; lia).
  assert (Hd : digits (n * 2 ^ (53 - digits n)) = 53)
    by (rewrite digits_mul_pow2 by lia; lia).
  split; [done|].
  pose proof (digits_bounds (n * 2 ^ (53 - digits n)) ltac:(nia)) as B.
  rewrite Hd in B. exact B.
Qed.

Lemma truediv_val y size :
  1 ≤ y < size → size < 2 ^ 31 →
  ∃ t, 53 ≤ t ≤ 84 ∧ fval (F64.truediv y size) false (rne (y * 2 ^ t) size) (- t).
Proof.
  intros Hy Hs. unfold F64.truediv.
  assert (Hy53 : 1 ≤ y < 2 ^ 53) by (pow_numerals; lia).
  assert (Hs53 : 1 ≤ size < 2 ^ 53) by (pow_numerals; lia).
  rewrite (of_int_pos y), (of_int_pos size) by done.
  destruct (norm_mantissa_bounds y Hy53) as [Hd1 BY].
  destruct (norm_mantissa_bounds size Hs53) as [Hd2 BS].
  set (dy := digits y) in *. set (dz := digits size) in *.
  pose proof (digits_pos y ltac:(lia)) as Hdy0. fold dy in Hdy0.
  pose proof (digits_le_of_lt size 31 ltac:(lia) ltac:(lia) ltac:(lia)) as Hdz.
  fold dz in Hdz.
  pose proof (digits_mono y size ltac:(lia)) as Hm. fold dy dz in Hm.
  set (Y := y * 2 ^ (53 - dy)) in *. set (S := size * 2 ^ (53 - dz)) in *.
  pose proof (div_finite (Z.to_pos Y) (dy - 53) (Z.to_pos S) (dz - 53)) as H.
  rewrite !Z2Pos.id in H by lia.
  specialize (H Hd1 Hd2 ltac:(lia)). cbv zeta in H.
  set (q := Y * 2 ^ 53 / S) in *.
  assert (Hq : 2 ^ 52 ≤ q < 2 ^ 54).
  { unfold q. split.
    - apply Z.div_le_lower_bound; [lia|]. pow_numerals. lia.
    - apply Z.div_lt_upper_bound; [lia|]. pow_numerals. lia. }
  set (p := digits q - 53) in *.
  assert (Hp : 0 ≤ p ≤ 1).
  { unfold p. pose proof (digits_bounds q ltac:(lia)) as [Bl Bu]. split.
    - destruct (Z.le_gt_cases 53 (digits q)); [lia|].
      assert (2 ^ digits q ≤ 2 ^ 52) by (apply Z.pow_le_mono_r; lia). lia.
    - assert (digits q ≤ 54) by (apply digits_le_of_lt; lia). lia. }
  pose proof (fval_bounds _ _ _ _ H) as BR.
  set (t := 53 + dz - dy - p).
  assert (Ht0 : 52 ≤ t) by (unfold t; lia).
  assert (Pt : 0 < 2 ^ t) by (apply Z.pow_pos_nonneg; lia).
  (* the rounded quotient in terms of [y] and [size] *)
  assert (HR : rne (Y * 2 ^ 53) (S * 2 ^ p) = rne (y * 2 ^ t) size).
  { rewrite <- (rne_scale (2 ^ (53 - dz + p)) (y * 2 ^ t) size)
      by (try lia; apply Z.pow_pos_nonneg; lia).
    unfold Y, S. f_equal.
    - replace (y * 2 ^ (53 - dy) * 2 ^ 53) with (y * (2 ^ (53 - dy) * 2 ^ 53)) by ring.
      replace (2 ^ (53 - dz + p) * (y * 2 ^ t)) with (y * (2 ^ (53 - dz + p) * 2 ^ t)) by ring.
      rewrite <- !Z.pow_add_r by lia. do 2 f_equal. unfold t. lia.
    - rewrite Z.pow_add_r by lia. ring. }
  rewrite HR in H, BR.
  replace (dy - 53 - (dz - 53) - 53 + p) with (- t) in H by (unfold t; lia).
  exists t. split; [|done]. split; [|unfold t; lia].
  destruct (Z.le_gt_cases 53 t) as [|Hlt]; [done|exfalso].
  assert (Et : t = 52) by lia.
  assert (rne (y * 2 ^ t) size ≤ 2 ^ 52 - 1); [|lia].
  apply rne_upper; [lia|]. rewrite Et.
  pow_numerals. lia.
Qed.

(** ** Addition *)

Lemma shl_align_fst mx ex ex' :
  ex' ≤ ex → shl_align mx ex ex' = (Z.to_pos (Z.pos mx * 2 ^ (ex - ex')), ex').
Proof.
  intros H. unfold shl_align.
  destruct (ex' - ex) as [|d|d] eqn:E; try lia.
  - assert (ex' = ex) as -> by lia. rewrite Z.sub_diag, Z.mul_1_r. done.
  - f_equal. apply Pos2Z.inj. rewrite iter_xO_pow2, Z2Pos.id.
    + do 2 f_equal. lia.
    + assert (0 < 2 ^ (ex - ex')) by (apply Z.pow_pos_nonneg; lia). lia.
Qed.

Lemma shl_align_id mx ex ex' : ex ≤ ex' → shl_align mx ex ex' = (mx, ex).
Proof.
  intros H. unfold shl_align. destruct (ex' - ex) eqn:E; try lia; done.
Qed.

(** [a + y] for a positive constant [a] of exponent [ea] and a float [y] of
    smaller exponent, when the exact sum has at least 53 bits. *)
Lemma add_finite ma ea sy my ey :
  ey ≤ ea →
  let S := Z.pos ma * 2 ^ (ea - ey) + cond_Zopp sy (Z.pos my) in
  53 ≤ digits S → 0 < S → -1074 ≤ digits S + ey - 53 → digits S + ey ≤ 1023 →
  fval (F64.add (S754_finite false ma ea) (S754_finite sy my ey)) false
       (rne S (2 ^ (digits S - 53))) (ey + (digits S - 53)).
Proof.
  intros Hle S Hd HS Hlo Hhi.
  unfold F64.add, F64.prec, F64.emax, SFadd.
  rewrite Z.min_r by lia.
  rewrite (shl_align_fst ma ea ey), (shl_align_id my ey ey) by lia.
  cbn [fst cond_Zopp].
  assert (0 < 2 ^ (ea - ey)) by (apply Z.pow_pos_nonneg; lia).
  rewrite Z2Pos.id by lia. fold (cond_Zopp sy (Z.pos my)). fold S.
  destruct S as [|ps|ps] eqn:ES; try lia.
  unfold binary_normalize, binary_round.
  change (Z.pos (digits2_pos ps)) with (digits (Z.pos ps)).
  rewrite fexp_normal by lia.
  rewrite shl_align_id by lia.
  pose proof (binary_round_aux_val false (Z.pos ps) 1 (Z.pos ps) loc_Exact ey) as Hv.
  rewrite Z.mul_1_l in Hv. apply Hv; try lia.
  - apply rec_of_exact.
  - apply Z.div_1_r.
Qed.


(** ** The gradient: float blend = exact blend *)

(** The arithmetic heart: the two rounding errors of [y / size] and of the
    product by [K'] are too small to move the sum across an integer.  Here
    [T], [U], [W] and [C] stand for the powers of two [2^t], [2^u],
    [2^(t-u-gr)] and [2^gr]. *)
Lemma channel_arith_core a K' size y R1 R2 T U W C H j r Ks ps :
  1 ≤ K' → 2 * K' < H → 1 ≤ y < size → size < 2 ^ 31 →
  1 ≤ U → 2 ≤ W → 2 ^ 33 ≤ C → T = W * C * U → H ≤ W * U →
  - size ≤ 2 * (R1 * size - y * T) ≤ size →
  - U ≤ 2 * (R2 * U - K' * R1) ≤ U →
  (Ks = K' ∧ ps = R2) ∨ (Ks = - K' ∧ ps = - R2) →
  a * size + Ks * y = size * j + r → 0 ≤ r < size →
  (2 * (j * C) - 1) * W < 2 * (a * (W * C) + ps) ∧
  2 * (a * (W * C) + ps) < (2 * (C * (j + 1) - 1) + 1) * W.
Proof.
  intros HK HKH Hy Hs HU HW HC HT HH E1 E2 Hsgn EN Hr.
  pow_numerals.
  (* products bounded through their factors *)
  assert (F1 : - (U * size) ≤ 2 * (R2 * U - K' * R1) * size ≤ U * size).
  { clear - E2 Hy. split.
    - replace (- (U * size)) with ((- U) * size) by ring.
      apply Z.mul_le_mono_nonneg_r; lia.
    - apply Z.mul_le_mono_nonneg_r; lia. }
  assert (F2 : - (K' * size) ≤ K' * (2 * (R1 * size - y * T)) ≤ K' * size).
  { clear - E1 HK. split.
    - replace (- (K' * size)) with (K' * (- size)) by ring.
      apply Z.mul_le_mono_nonneg_l; lia.
    - apply Z.mul_le_mono_nonneg_l; lia. }
  assert (ED : - (U * size + K' * size) ≤ 2 * (ps * U * size - Ks * y * T)
               ≤ U * size + K' * size).
  { clear - F1 F2 Hsgn. destruct Hsgn as [[-> ->]|[-> ->]]; lia. }
  assert (F3 : 2 * U ≤ W * U).
  { clear - HU HW. apply Z.mul_le_mono_nonneg_r; lia. }
  assert (F4 : (U + K' + 1) * size ≤ W * U * size).
  { clear - F3 HKH HH Hy. apply Z.mul_le_mono_nonneg_r; lia. }
  assert (F5 : 0 ≤ T * r ≤ T * (size - 1)).
  { assert (0 ≤ T) by (clear - HT HU HW HC; subst T;
      repeat apply Z.mul_nonneg_nonneg; lia).
    clear - H0 Hr. split.
    - apply Z.mul_nonneg_nonneg; lia.
    - apply Z.mul_le_mono_nonneg_l; lia. }
  assert (F6 : (U + K' + W * U) * size ≤ (U + K' + W * U) * 2147483648).
  { assert (0 ≤ W * U) by (clear - HU HW; apply Z.mul_nonneg_nonneg; lia).
    clear - H0 HU HK Hs Hy. apply Z.mul_le_mono_nonneg_l; lia. }
  assert (F7 : 8589934592 * (W * U) ≤ T).
  { assert (0 ≤ W * U) by (clear - HU HW; apply Z.mul_nonneg_nonneg; lia).
    clear - H0 HC HT. subst T.
    replace (W * C * U) with (C * (W * U)) by ring.
    apply Z.mul_le_mono_nonneg_r; lia. }
  (* both sides scaled by [U * size] *)
  assert (EXP : (a * (W * C) + ps) * (U * size) =
                T * (size * j + r) + (ps * U * size - Ks * y * T)).
  { rewrite <- EN, HT. ring. }
  assert (Hpos : 0 < U * size) by (clear - HU Hy; apply Z.mul_pos_pos; lia).
  split.
  - apply (Z.mul_lt_mono_pos_r (U * size)); [done|].
    replace (2 * (a * (W * C) + ps) * (U * size))
      with (2 * ((a * (W * C) + ps) * (U * size))) by ring.
    rewrite EXP.
    replace ((2 * (j * C) - 1) * W * (U * size))
      with (2 * j * size * (W * C * U) - W * U * size) by ring.
    rewrite <- HT. clear - ED F4 F5 Hy. nia.
  - apply (Z.mul_lt_mono_pos_r (U * size)); [done|].
    replace (2 * (a * (W * C) + ps) * (U * size))
      with (2 * ((a * (W * C) + ps) * (U * size))) by ring.
    rewrite EXP.
    replace ((2 * (C * (j + 1) - 1) + 1) * W * (U * size))
      with (2 * (j + 1) * size * (W * C * U) - W * U * size) by ring.
    rewrite <- HT. clear - ED F3 F5 F6 F7 HKH HH Hy. nia.
Qed.

Lemma channel_arith hi a K' size y t u R1 R2 (sK : bool) :
  hi = 7 ∨ hi = 8 → 1 ≤ K' < 2 ^ (hi - 1) → 1 ≤ y < size → size < 2 ^ 31 →
  53 ≤ t → 0 ≤ u → 53 - hi + 1 ≤ t - u →
  - size ≤ 2 * (R1 * size - y * 2 ^ t) ≤ size →
  - 2 ^ u ≤ 2 * (R2 * 2 ^ u - K' * R1) ≤ 2 ^ u →
  rne (a * 2 ^ (t - u) + cond_Zopp sK R2) (2 ^ (t - u - (53 - hi))) / 2 ^ (53 - hi)
  = (a * size + cond_Zopp sK K' * y) / size.
Proof.
  intros Hhi HK Hy Hs Ht Hu HG E1 E2.
  set (gr := 53 - hi) in *.
  set (T := 2 ^ t) in *. set (U := 2 ^ u) in *.
  set (W := 2 ^ (t - u - gr)). set (C := 2 ^ gr).
  assert (HU : 1 ≤ U) by (unfold U; pose proof (Z.pow_pos_nonneg 2 u); lia).
  assert (HW : 2 ≤ W).
  { unfold W. change 2 with (2 ^ 1) at 1. apply Z.pow_le_mono_r; lia. }
  assert (HPG : 2 ^ (t - u) = W * C).
  { unfold W, C. rewrite <- Z.pow_add_r by lia. f_equal. lia. }
  assert (HT : T = W * C * U).
  { rewrite <- HPG. unfold T, U. rewrite <- Z.pow_add_r by lia. f_equal. lia. }
  assert (HT53 : 2 ^ 53 ≤ T) by (apply Z.pow_le_mono_r; lia).
  assert (HC : 0 < C) by (apply Z.pow_pos_nonneg; lia).
  assert (HC33 : 2 ^ 33 ≤ C) by (unfold C, gr; apply Z.pow_le_mono_r; lia).
  assert (HC53 : C * 2 ^ hi = 2 ^ 53).
  { unfold C, gr. rewrite <- Z.pow_add_r by lia. f_equal. lia. }
  assert (HWU : 2 ^ hi ≤ W * U).
  { apply (Z.mul_le_mono_pos_l _ _ C); [done|]. rewrite HC53.
    replace (C * (W * U)) with (W * C * U) by ring. by rewrite <- HT. }
  assert (HKp : 2 * K' < 2 ^ hi).
  { replace hi with (1 + (hi - 1)) at 1 by lia.
    rewrite Z.pow_add_r by lia. change (2 ^ 1) with 2. lia. }
  rewrite HPG.
  set (N := a * size + cond_Zopp sK K' * y).
  pose proof (Z.div_mod N size ltac:(lia)) as EN.
  pose proof (Z.mod_pos_bound N size ltac:(lia)) as BN.
  destruct (channel_arith_core a K' size y R1 R2 T U W C (2 ^ hi)
              (N / size) (N mod size) (cond_Zopp sK K') (cond_Zopp sK R2))
    as [Hl Hu']; try done; try lia.
  { destruct sK; cbn [cond_Zopp]; auto. }
  apply rne_lower in Hl; [|lia]. apply rne_upper in Hu'; [|lia].
  apply Z.le_antisymm.
  - apply Z.lt_succ_r. apply Z.div_lt_upper_bound; [done|]. lia.
  - apply Z.div_le_lower_bound; [done|]. lia.
Qed.


Lemma pow2_lt_inv a b : 0 ≤ b → 2 ^ a < 2 ^ b → a < b.
Proof. intros Hb H. apply (Z.pow_lt_mono_r_iff 2); [lia|done|done]. Qed.

Section Channel.
Variables (hi a K' cK : Z) (sK : bool) (ma : positive).
Hypothesis Hhi : hi = 7 ∨ hi = 8.
Hypothesis Ha : F64.of_int a = S754_finite false ma (hi - 53).
Hypothesis Hma : Z.pos ma = a * 2 ^ (53 - hi).
Hypothesis HKv : fval (F64.of_int (cond_Zopp sK K')) sK (K' * 2 ^ cK) (- cK).
Hypothesis HcK : 0 ≤ cK ≤ 52.
Hypothesis HK : 1 ≤ K' < 2 ^ (hi - 1).
Hypothesis Hmag : if sK then 2 ^ (hi - 1) ≤ a - K' ∧ a < 2 ^ hi
                  else 2 ^ (hi - 1) ≤ a ∧ a + K' < 2 ^ hi.

Lemma channel_top size :
  0 < size < 2 ^ 31 →
  gradient_channel a (a + cond_Zopp sK K') (F64.truediv 0 size) = a.
Proof.
  intros Hs. unfold gradient_channel, F64.truediv.
  replace (a + cond_Zopp sK K' - a) with (cond_Zopp sK K') by lia.
  rewrite (of_int_pos size) by (pow_numerals; lia).
  destruct HKv as (m & e & -> & _). rewrite Ha.
  cbn. rewrite Hma.
  assert (0 < 2 ^ (53 - hi)) by (apply Z.pow_pos_nonneg; lia).
  destruct (Z.leb_spec 0 (hi - 53)); [lia|].
  replace (- (hi - 53)) with (53 - hi) by lia.
  apply Z.div_mul. lia.
Qed.

Lemma channel_exact y size :
  1 ≤ y < size → size < 2 ^ 31 →
  gradient_channel a (a + cond_Zopp sK K') (F64.truediv y size)
  = (a * size + cond_Zopp sK K' * y) / size.
Proof.
  intros Hy Hs. unfold gradient_channel.
  replace (a + cond_Zopp sK K' - a) with (cond_Zopp sK K') by lia.
  destruct (truediv_val y size Hy Hs) as (t & Ht & Hrat).
  set (R1 := rne (y * 2 ^ t) size) in *.
  pose proof (rne_err (y * 2 ^ t) size ltac:(lia)) as E1. fold R1 in E1.
  pose proof (fval_bounds _ _ _ _ Hrat) as B1.
  assert (PT : 0 < 2 ^ t) by (apply Z.pow_pos_nonneg; lia).
  assert (HR1T : R1 ≤ 2 ^ t).
  { apply rne_upper; [lia|]. nia. }
  assert (Phi : 2 ^ (hi - 1) ≤ 2 ^ 7) by (apply Z.pow_le_mono_r; lia).
  (* the product *)
  assert (HKR : 2 ^ 52 ≤ K' * R1 < 2 ^ 60).
  { change (2 ^ 60) with (2 ^ 7 * 2 ^ 53). nia. }
  set (u := digits (K' * R1) - 53).
  assert (Hu : 0 ≤ u ≤ 7).
  { unfold u. pose proof (digits_bounds (K' * R1) ltac:(lia)) as [Bl Bu]. split.
    - destruct (Z.le_gt_cases 53 (digits (K' * R1))); [lia|].
      assert (2 ^ digits (K' * R1) ≤ 2 ^ 52) by (apply Z.pow_le_mono_r; lia). lia.
    - assert (digits (K' * R1) ≤ 60) by (apply digits_le_of_lt; lia). lia. }
  assert (PU : 0 < 2 ^ u) by (apply Z.pow_pos_nonneg; lia).
  assert (PcK : 0 < 2 ^ cK) by (apply Z.pow_pos_nonneg; lia).
  set (R2 := rne (K' * R1) (2 ^ u)).
  pose proof (mul_val _ _ _ _ _ _ _ _ HKv Hrat) as Hprod. cbv zeta in Hprod.
  replace (K' * 2 ^ cK * R1) with (K' * R1 * 2 ^ cK) in Hprod by ring.
  rewrite digits_mul_pow2 in Hprod by lia. fold u in Hprod.
  replace (digits (K' * R1) + cK - 53) with (cK + u) in Hprod by (unfold u; lia).
  rewrite Z.pow_add_r, (Z.mul_comm (K' * R1)), rne_scale in Hprod by lia.
  fold R2 in Hprod. rewrite xorb_false_r in Hprod.
  replace (- cK + - t + (cK + u)) with (- (t - u)) in Hprod by lia.
  specialize (Hprod ltac:(lia)).
  pose proof (rne_err (K' * R1) (2 ^ u) PU) as E2. fold R2 in E2.
  set (G := t - u) in *.
  assert (PG : 0 < 2 ^ G) by (apply Z.pow_pos_nonneg; unfold G; lia).
  assert (HTG : 2 ^ t = 2 ^ G * 2 ^ u).
  { rewrite <- Z.pow_add_r by (unfold G; lia). f_equal. unfold G. lia. }
  assert (HR2 : R2 ≤ K' * 2 ^ G).
  { apply rne_upper; [done|].
    assert (K' * R1 ≤ K' * (2 ^ G * 2 ^ u))
      by (rewrite <- HTG; apply Z.mul_le_mono_nonneg_l; lia).
    clear - H PU. nia. }
  destruct Hprod as (mp & ep & Eprod & Hge & HmR & Hdp & HR2u).
  set (k := ep + G). assert (Hk : 0 ≤ k) by (unfold k; lia).
  replace (ep - - G) with k in HmR by (unfold k; lia).
  assert (Pk : 0 < 2 ^ k) by (apply Z.pow_pos_nonneg; lia).
  pose proof (digits_bounds (Z.pos mp) ltac:(lia)) as Bmp. rewrite Hdp in Bmp.
  change (2 ^ (53 - 1)) with (2 ^ 52) in Bmp.
  assert (HG : 54 + k - hi ≤ G).
  { assert (2 ^ (52 + k) < 2 ^ (hi - 1 + G)).
    { rewrite !Z.pow_add_r by (unfold G; lia).
      apply Z.le_lt_trans with (K' * 2 ^ G).
      - rewrite <- HmR in HR2.
        apply Z.le_trans with (Z.pos mp * 2 ^ k); [|done].
        apply Z.mul_le_mono_nonneg_r; lia.
      - apply Z.mul_lt_mono_pos_r; lia. }
    apply pow2_lt_inv in H; unfold G in *; lia. }
  rewrite Eprod, Ha.
  (* the sum *)
  set (S := Z.pos ma * 2 ^ (hi - 53 - ep) + cond_Zopp sK (Z.pos mp)).
  set (S' := a * 2 ^ G + cond_Zopp sK R2).
  assert (HSS : S' = S * 2 ^ k).
  { unfold S', S. rewrite Hma, <- HmR.
    assert (a * 2 ^ G = a * 2 ^ (53 - hi) * 2 ^ (hi - 53 - ep) * 2 ^ k) as ->.
    { rewrite <- !Z.mul_assoc, <- !Z.pow_add_r by (unfold k, G in *; lia).
      do 2 f_equal. unfold k. lia. }
    destruct sK; cbn [cond_Zopp]; ring. }
  assert (BS' : 2 ^ (hi - 1 + G) ≤ S' < 2 ^ (hi + G)).
  { rewrite !Z.pow_add_r by (unfold G; lia). unfold S'.
    assert (0 < R2) by lia.
    assert (M1 : ∀ c d, c ≤ d → c * 2 ^ G ≤ d * 2 ^ G)
      by (intros; apply Z.mul_le_mono_nonneg_r; lia).
    assert (M2 : ∀ c d, c < d → c * 2 ^ G < d * 2 ^ G)
      by (intros; apply Z.mul_lt_mono_pos_r; lia).
    destruct sK; cbn [cond_Zopp] in *.
    - pose proof (M1 (2 ^ (hi - 1)) (a - K') ltac:(lia)).
      pose proof (M2 a (2 ^ hi) ltac:(lia)).
      replace ((a - K') * 2 ^ G) with (a * 2 ^ G - K' * 2 ^ G) in * by ring. lia.
    - pose proof (M1 (2 ^ (hi - 1)) a ltac:(lia)).
      pose proof (M2 (a + K') (2 ^ hi) ltac:(lia)).
      replace ((a + K') * 2 ^ G) with (a * 2 ^ G + K' * 2 ^ G) in * by ring. lia. }
  assert (HdS' : digits S' = hi + G).
  { apply digits_unique; [|lia].
    replace (hi + G - 1) with (hi - 1 + G) by lia. done. }
  assert (HS0 : 0 < S).
  { apply (Z.mul_pos_cancel_r S (2 ^ k)); [done|]. rewrite <- HSS. lia. }
  assert (HdS : digits S = hi + G - k).
  { rewrite HSS, digits_mul_pow2 in HdS' by lia. lia. }
  pose proof (add_finite ma (hi - 53) sK mp ep ltac:(unfold k in *; lia)) as Hsum.
  cbv zeta in Hsum. fold S in Hsum. rewrite HdS in Hsum.
  specialize (Hsum ltac:(lia) HS0 ltac:(unfold k in *; lia) ltac:(unfold k in *; lia)).
  replace (ep + (hi + G - k - 53)) with (hi - 53) in Hsum by (unfold k; lia).
  rewrite (to_int_val _ _ _ Hsum) by lia.
  replace (- (hi - 53)) with (53 - hi) by lia.
  rewrite <- (rne_scale (2 ^ k)) by (try done; apply Z.pow_pos_nonneg; lia).
  rewrite (Z.mul_comm (2 ^ k) S), <- HSS, <- Z.pow_add_r by lia.
  replace (k + (hi + G - k - 53)) with (t - u - (53 - hi)) by (unfold G; lia).
  unfold S'. fold G.
  apply (channel_arith hi a K' size y t u R1 R2 sK); try done; try lia.
Qed.

End Channel.


Lemma blend_spec_div a b y size :
  0 < size → 0 ≤ a * size + (b - a) * y →
  blend_spec a b y size = (a * size + (b - a) * y) / size.
Proof. intros. unfold blend_spec. apply Z.quot_div_nonneg; lia. Qed.

Lemma gradient_channel_red y size :
  0 ≤ y < size → size < 2 ^ 31 →
  gradient_channel 102 118 (F64.truediv y size) = (102 * size + 16 * y) / size.
Proof.
  intros Hy Hs.
  destruct (Z.eq_dec y 0) as [->|Hy0].
  - rewrite (channel_top 7 102 16 48 false (Z.to_pos (102 * 2 ^ 46)));
      try reflexivity; try lia.
    + rewrite Z.mul_0_r, Z.add_0_r. symmetry. apply Z.div_mul. lia.
    + eexists _, _. split; [reflexivity|]. repeat split; try reflexivity; discriminate.
  - apply (channel_exact 7 102 16 48 false (Z.to_pos (102 * 2 ^ 46)));
      try reflexivity; try lia; try (pow_numerals; lia).
    eexists _, _. split; [reflexivity|]. repeat split; try reflexivity; discriminate.
Qed.

Lemma gradient_channel_green y size :
  0 ≤ y < size → size < 2 ^ 31 →
  gradient_channel 110 75 (F64.truediv y size) = (110 * size + -35 * y) / size.
Proof.
  intros Hy Hs.
  destruct (Z.eq_dec y 0) as [->|Hy0].
  - rewrite (channel_top 7 110 35 47 true (Z.to_pos (110 * 2 ^ 46)));
      try reflexivity; try lia.
    + rewrite Z.mul_0_r, Z.add_0_r. symmetry. apply Z.div_mul. lia.
    + eexists _, _. split; [reflexivity|]. repeat split; try reflexivity; discriminate.
  - apply (channel_exact 7 110 35 47 true (Z.to_pos (110 * 2 ^ 46)));
      try reflexivity; try lia; try (pow_numerals; lia).
    eexists _, _. split; [reflexivity|]. repeat split; try reflexivity; discriminate.
Qed.

Lemma gradient_channel_blue y size :
  0 ≤ y < size → size < 2 ^ 31 →
  gradient_channel 234 162 (F64.truediv y size) = (234 * size + -72 * y) / size.
Proof.
  intros Hy Hs.
  destruct (Z.eq_dec y 0) as [->|Hy0].
  - rewrite (channel_top 8 234 72 46 true (Z.to_pos (234 * 2 ^ 45)));
      try reflexivity; try lia.
    + rewrite Z.mul_0_r, Z.add_0_r. symmetry. apply Z.div_mul. lia.
    + eexists _, _. split; [reflexivity|]. repeat split; try reflexivity; discriminate.
  - apply (channel_exact 8 234 72 46 true (Z.to_pos (234 * 2 ^ 45)));
      try reflexivity; try lia; try (pow_numerals; lia).
    eexists _, _. split; [reflexivity|]. repeat split; try reflexivity; discriminate.
Qed.

(** What lines 32-35 compute in floating point is the exact blend. *)
Lemma gradient_color_exact y size :
  0 ≤ y < size → size < 2 ^ 31 →
  gradient_color y size =
  (blend_spec 102 118 y size, blend_spec 110 75 y size, blend_spec 234 162 y size).
Proof.
  intros Hy Hs. unfold gradient_color.
  rewrite gradient_channel_red, gradient_channel_green, gradient_channel_blue by done.
  rewrite !blend_spec_div by lia. reflexivity.
Qed.

Lemma blend_spec_top a b size : 0 < size → 0 ≤ a → blend_spec a b 0 size = a.
Proof.
  intros. rewrite blend_spec_div by nia.
  rewrite Z.mul_0_r, Z.add_0_r. apply Z.div_mul. lia.
Qed.

Lemma blend_spec_toward a b y y' size :
  0 ≤ a → 0 ≤ b → 0 ≤ y ≤ y' → y' < size →
  (a ≤ b → a ≤ blend_spec a b y size ≤ blend_spec a b y' size ∧
           blend_spec a b y' size ≤ b) ∧
  (b ≤ a → b ≤ blend_spec a b y' size ≤ blend_spec a b y size ∧
           blend_spec a b y size ≤ a).
Proof.
  intros Ha Hb Hy Hy'.
  assert (Hnum : ∀ z, 0 ≤ z < size → 0 ≤ a * size + (b - a) * z).
  { intros z Hz. destruct (Z.le_gt_cases a b); nia. }
  rewrite !blend_spec_div by (try apply Hnum; lia).
  split; intros Hab.
  - repeat split.
    + apply Z.div_le_lower_bound; nia.
    + apply Z.div_le_mono; nia.
    + apply Z.div_le_upper_bound; nia.
  - repeat split.
    + apply Z.div_le_lower_bound; nia.
    + apply Z.div_le_mono; nia.
    + apply Z.div_le_upper_bound; nia.
Qed.


(* ===================================================================== *)
(** * Part III: layout, images and the program                             *)
(* ===================================================================== *)


Lemma layout_is_exact size : 0 ≤ size < 2 ^ 31 → layout_exact size.
Proof.
  intros Hs.
  assert (Hsz : safe_zone size = size / 5) by (apply int_mul_0_2; done).
  assert (Hcs : content_size size = size - size / 5 * 2)
    by (unfold content_size; rewrite Hsz; done).
  assert (Bcs : 0 ≤ content_size size < 2 ^ 31)
    by (rewrite Hcs; pow_numerals; Z.div_mod_to_equations; lia).
  assert (Hpad : padding size = content_size size / 5) by (apply int_mul_0_2; done).
  assert (Hcw : cal_width size = content_size size - content_size size / 5 * 2)
    by (unfold cal_width; rewrite Hpad; done).
  assert (Bcw : 0 ≤ cal_width size < 2 ^ 31)
    by (rewrite Hcw; pow_numerals; Z.div_mod_to_equations; lia).
  assert (Hch : cal_height size = 9 * cal_width size / 10) by (apply int_mul_0_9; done).
  assert (Bch : 0 ≤ cal_height size < 2 ^ 31)
    by (rewrite Hch; pow_numerals; Z.div_mod_to_equations; lia).
  assert (Bds : 0 ≤ dot_spacing size < 2 ^ 31)
    by (unfold dot_spacing; pow_numerals; Z.div_mod_to_equations; lia).
  split; try done.
  - unfold cal_x, content_x. rewrite Hsz, Hpad. done.
  - unfold cal_y, content_y. rewrite Hsz, int_mul_0_15 by done. done.
  - apply int_mul_0_04; done.
  - unfold header_height. rewrite int_mul_0_2 by done.
    Z.div_mod_to_equations; lia.
  - apply int_mul_0_08; done.
  - unfold start_x. pose proof (int_mul_0_7 (dot_spacing size) Bds). lia.
  - intros Hm. unfold start_x. rewrite int_mul_0_7_exact by done. done.
  - unfold start_y. rewrite int_mul_0_4 by done. done.
  - apply int_mul_0_15; done.
Qed.

Ltac layout_facts size H :=
  destruct (layout_is_exact size H) as
    [Lsz Lcs Lpad Lcw Lch Lcx Lcy Lcr Lhh Lds Ldsp Lsx Lsx' Lsy Lbg].



(** ** Pixels of painted images *)

Section Images.
Context {A : Type}.
Implicit Types (img : image A) (x y : Z).


Lemma getpixel_Image_new w h (c : A) x y :
  0 ≤ x < w → 0 ≤ y < h → getpixel (Image_new w h c) x y = Some c.
Proof.
  intros Hx Hy. unfold getpixel, Image_new.
  rewrite (proj2 (Z.leb_le 0 x)), (proj2 (Z.leb_le 0 y)) by lia.
  cbn [andb]. rewrite (lookup_replicate_2 (Z.to_nat h)) by lia.
  cbn [mbind option_bind]. apply lookup_replicate_2. lia.
Qed.

Lemma getpixel_paint cov (ink : A) img x y :
  getpixel (paint cov ink img) x y =
  (λ p, if cov x y then ink else p) <$> getpixel img x y.
Proof.
  unfold getpixel, paint.
  destruct (Z.leb_spec 0 x), (Z.leb_spec 0 y); simpl; try done.
  rewrite list_lookup_imap.
  destruct (img !! Z.to_nat y) as [row|]; simpl; [|done].
  rewrite list_lookup_imap, !Z2Nat.id by lia. done.
Qed.

Lemma height_Image_new w h (c : A) : 0 ≤ h → height (Image_new w h c) = h.
Proof. intros. unfold height, Image_new. rewrite length_replicate. lia. Qed.

Lemma has_width_Image_new w h (c : A) : 0 ≤ w → has_width w (Image_new w h c).
Proof.
  intros. unfold has_width, Image_new. apply Forall_replicate.
  rewrite length_replicate. lia.
Qed.

Lemma height_paint cov (ink : A) img : height (paint cov ink img) = height img.
Proof. unfold height, paint. by rewrite length_imap. Qed.

Lemma has_width_paint cov (ink : A) img w :
  has_width w img → has_width w (paint cov ink img).
Proof.
  unfold has_width, paint. rewrite !Forall_lookup. intros H i row.
  rewrite list_lookup_imap. destruct (img !! i) as [r|] eqn:E; simpl; [|done].
  intros [= <-]. rewrite length_imap. eauto.
Qed.

End Images.

Lemma getpixel_paste dst src mask x y :
  getpixel (paste dst src mask) x y =
  (λ d, match getpixel src x y, getpixel mask x y with
        | Some s, Some m => paste_pixel m s d
        | _, _ => d
        end) <$> getpixel dst x y.
Proof.
  unfold paste. unfold getpixel at 1 6.
  destruct ((0 <=? x) && (0 <=? y)) eqn:E; [|done].
  apply andb_true_iff in E as [Hx%Z.leb_le Hy%Z.leb_le].
  rewrite list_lookup_imap.
  destruct (dst !! Z.to_nat y) as [row|]; simpl; [|done].
  rewrite list_lookup_imap, !Z2Nat.id by lia. done.
Qed.

Lemma height_paste dst src mask : height (paste dst src mask) = height dst.
Proof. unfold height, paste. by rewrite length_imap. Qed.

Lemma has_width_paste dst src mask w :
  has_width w dst → has_width w (paste dst src mask).
Proof.
  unfold has_width, paste. rewrite !Forall_lookup. intros H i row.
  rewrite list_lookup_imap. destruct (dst !! i) as [r|] eqn:E; simpl; [|done].
  intros [= <-]. rewrite length_imap. eauto.
Qed.

(** ** A sequence of drawing calls *)

Section Drawing.
Context `{P : Pillow} {A : Type}.

Lemma getpixel_draw_all (l : list (shape * A)) (img : image A) x y :
  getpixel (foldl (λ im sc, draw im sc.1 sc.2) img l) x y =
  top_ink l x y <$> getpixel img x y.
Proof.
  revert img. induction l as [|[s c] l IH]; intros img; simpl.
  - by destruct (getpixel img x y).
  - rewrite IH. unfold draw. rewrite getpixel_paint.
    by destruct (getpixel img x y).
Qed.

Lemma height_draw_all (l : list (shape * A)) (img : image A) :
  height (foldl (λ im sc, draw im sc.1 sc.2) img l) = height img.
Proof.
  revert img. induction l as [|[s c] l IH]; intros img; simpl; [done|].
  rewrite IH. apply height_paint.
Qed.

Lemma has_width_draw_all (l : list (shape * A)) (img : image A) w :
  has_width w img → has_width w (foldl (λ im sc, draw im sc.1 sc.2) img l).
Proof.
  revert img. induction l as [|[s c] l IH]; intros img H; simpl; [done|].
  apply IH. by apply has_width_paint.
Qed.

Lemma top_ink_app (l1 l2 : list (shape * A)) x y p :
  top_ink (l1 ++ l2) x y p = top_ink l2 x y (top_ink l1 x y p).
Proof. unfold top_ink. apply foldl_app. Qed.

Lemma top_ink_uncovered (l : list (shape * A)) x y p :
  Forall (λ sc, covers sc.1 x y = false) l → top_ink l x y p = p.
Proof.
  induction 1 as [|[s c] l Hs _ IH]; simpl; [done|].
  simpl in Hs. rewrite Hs. done.
Qed.

Lemma top_ink_elem (l : list (shape * A)) x y p :
  top_ink l x y p = p ∨ ∃ sc, sc ∈ l ∧ covers sc.1 x y = true ∧ top_ink l x y p = sc.2.
Proof.
  revert p. induction l as [|[s c] l IH] using rev_ind; intros p; [by left|].
  rewrite top_ink_app. simpl.
  destruct (covers s x y) eqn:E.
  - right. exists (s, c). split; [set_solver|done].
  - destruct (IH p) as [->|(sc & Hin & Hc & ->)]; [by left|].
    right. exists sc. split; [set_solver|done].
Qed.

End Drawing.


Lemma calendar_content_eq size :
  calendar_content size =
  [ (body_shape size, body_gray); (header_shape size, white);
    (dot_shape size 0 0, purple_a); (dot_shape size 1 0, purple_a);
    (dot_shape size 2 0, purple_a);
    (dot_shape size 0 1, purple_b); (dot_shape size 1 1, purple_b);
    (dot_shape size 2 1, purple_b);
    (dot_shape size 0 2, purple_a); (dot_shape size 1 2, purple_a) ].
Proof. reflexivity. Qed.

Ltac layout_arith :=
  pow_numerals; Z.div_mod_to_equations; lia.

Ltac layout_rewrite :=
  repeat match goal with
  | H : start_y _ = _ |- _ => rewrite H in *; clear H
  | H : header_height _ = _ |- _ => rewrite H in *; clear H
  | H : dot_size _ = _ |- _ => rewrite H in *; clear H
  | H : cal_radius _ = _ |- _ => rewrite H in *; clear H
  | H : bg_radius _ = _ |- _ => rewrite H in *; clear H
  | H : cal_height _ = _ |- _ => rewrite H in *; clear H
  | H : dot_spacing _ = _ |- _ => rewrite H in *; clear H
  | H : cal_y _ = _ |- _ => rewrite H in *; clear H
  | H : cal_x _ = _ |- _ => rewrite H in *; clear H
  | H : cal_width _ = _ |- _ => rewrite H in *; clear H
  | H : padding _ = _ |- _ => rewrite H in *; clear H
  | H : content_size _ = _ |- _ => rewrite H in *; clear H
  | H : safe_zone _ = _ |- _ => rewrite H in *; clear H
  end.

Lemma safe_zone_content size :
  9 ≤ size < 2 ^ 31 →
  Forall (λ sc, box_in_safe_zone size (shape_box sc.1) = true) (calendar_content size).
Proof.
  intros Hs. assert (Hs' : 0 ≤ size < 2 ^ 31) by lia. layout_facts size Hs'.
  rewrite calendar_content_eq.
  repeat apply Forall_cons_2; try apply Forall_nil_2;
    unfold box_in_safe_zone, coord_in_safe_zone, body_shape, header_shape, dot_shape;
    cbn [shape_box fst bx0 by0 bx1 by1];
    rewrite !andb_true_iff, !Z.leb_le;
    layout_rewrite; layout_arith.
Qed.

Lemma bg_radius_floor size : 0 < size < 2 ^ 31 → bg_radius size = 15 * size / 100.
Proof.
  intros Hs. unfold bg_radius. rewrite int_mul_0_15 by lia.
  Z.div_mod_to_equations; lia.
Qed.

Lemma third_row_protrudes size :
  0 < size < 2 ^ 31 → size = 192 ∨ size = 512 ∨ 60 ≤ cal_width size →
  body_bottom size < third_row_bottom size ∧
  coord_in_safe_zone size (third_row_bottom size) = true.
Proof.
  intros Hs Hc.
  assert (Hw : 60 ≤ cal_width size).
  { destruct Hc as [->|[->|H]]; [vm_compute; discriminate..|done]. }
  clear Hc.
  assert (Hs' : 0 ≤ size < 2 ^ 31) by lia. layout_facts size Hs'.
  unfold body_bottom, third_row_bottom, coord_in_safe_zone.
  rewrite andb_true_iff, !Z.leb_le.
  layout_rewrite. layout_arith.
Qed.

(** ** Pixels of the icon *)

Lemma in_box_true b px py :
  in_box b px py = true ↔ bx0 b ≤ px ≤ bx1 b ∧ by0 b ≤ py ≤ by1 b.
Proof. unfold in_box. rewrite !andb_true_iff, !Z.leb_le. lia. Qed.

Lemma in_box_false b px py :
  px < bx0 b ∨ bx1 b < px ∨ py < by0 b ∨ by1 b < py → in_box b px py = false.
Proof.
  intros H. apply not_true_iff_false. rewrite in_box_true. lia.
Qed.

Section IconPixels.
Context `{P : Pillow}.

Lemma gradient_background_eq size :
  gradient_background size =
  foldl (λ im sc, draw im sc.1 sc.2) (Image_new size size black)
        (gradient_lines size size).
Proof. unfold gradient_background, gradient_lines. rewrite foldl_fmap. reflexivity. Qed.

Lemma top_ink_gradient_lines size (n : nat) x y p :
  top_ink (gradient_lines size (Z.of_nat n)) x y p =
  if (0 <=? y) && (y <? Z.of_nat n) && (0 <=? x) && (x <=? size)
  then gradient_color y size else p.
Proof.
  induction n as [|n IH].
  - change (Z.of_nat 0) with 0. unfold gradient_lines, top_ink. simpl.
    destruct (Z.leb_spec 0 y), (Z.ltb_spec y 0); simpl; try lia; done.
  - unfold gradient_lines in *. rewrite seqZ_S, fmap_app, top_ink_app, IH.
    cbn [fmap list_fmap top_ink foldl fst snd covers]. rewrite Z.add_0_l.
    unfold line_covers, in_box. cbn [bx0 by0 bx1 by1].
    rewrite Z.eqb_refl.
    destruct (Z.leb_spec 0 y), (Z.ltb_spec y (Z.of_nat n)),
      (Z.ltb_spec y (Z.of_nat (S n))), (Z.leb_spec 0 x), (Z.leb_spec x size),
      (Z.leb_spec (Z.of_nat n) y), (Z.leb_spec y (Z.of_nat n));
      cbn; try lia; try done.
    replace y with (Z.of_nat n) by lia. done.
Qed.

(** Before the corners are rounded, every pixel of row [y] has the colour
    computed for that row. *)
Lemma getpixel_gradient_background size x y :
  0 ≤ x < size → 0 ≤ y < size →
  getpixel (gradient_background size) x y = Some (gradient_color y size).
Proof.
  intros Hx Hy. rewrite gradient_background_eq, getpixel_draw_all.
  rewrite getpixel_Image_new by done. cbn [fmap option_fmap option_map].
  rewrite <- (Z2Nat.id size) at 2 by lia.
  rewrite top_ink_gradient_lines, Z2Nat.id by lia.
  destruct (Z.leb_spec 0 y), (Z.ltb_spec y size), (Z.leb_spec 0 x),
    (Z.leb_spec x size); cbn; try lia; done.
Qed.

Lemma getpixel_mask size r x y :
  0 ≤ x < size → 0 ≤ y < size →
  getpixel (create_rounded_rectangle_mask size r) x y =
  Some (if covers (mask_shape size r) x y then 255 else 0).
Proof.
  intros Hx Hy. unfold create_rounded_rectangle_mask, draw.
  rewrite getpixel_paint, getpixel_Image_new by done. done.
Qed.

Lemma getpixel_rounded_background size x y :
  0 ≤ x < size → 0 ≤ y < size →
  getpixel (rounded_background size) x y =
  Some (if covers (mask_shape size (bg_radius size)) x y
        then gradient_color y size else white).
Proof.
  intros Hx Hy. unfold rounded_background.
  rewrite getpixel_paste, getpixel_Image_new, getpixel_gradient_background,
    getpixel_mask by done.
  cbn [fmap option_fmap option_map]. f_equal.
  by destruct (covers _ x y).
Qed.

Lemma getpixel_draw_calendar_icon size x y :
  0 ≤ x < size → 0 ≤ y < size →
  getpixel (draw_calendar_icon size) x y =
  Some (top_ink (calendar_content size) x y
          (if covers (mask_shape size (bg_radius size)) x y
           then gradient_color y size else white)).
Proof.
  intros Hx Hy. unfold draw_calendar_icon.
  rewrite getpixel_draw_all, getpixel_rounded_background by done. done.
Qed.

Lemma draw_calendar_icon_dimensions size :
  0 ≤ size →
  height (draw_calendar_icon size) = size ∧ has_width size (draw_calendar_icon size).
Proof.
  intros Hs. unfold draw_calendar_icon, rounded_background. split.
  - rewrite height_draw_all, height_paste. by apply height_Image_new.
  - apply has_width_draw_all, has_width_paste. by apply has_width_Image_new.
Qed.

End IconPixels.

Section WithLaws.
Context `{P : Pillow} (Laws : PillowLaws P).

Lemma covers_in_box s x y : covers s x y = true → in_box (shape_box s) x y = true.
Proof.
  destruct s as [b|b r|b]; simpl.
  - unfold line_covers. rewrite andb_true_iff. tauto.
  - apply (rr_in_box P Laws).
  - apply (ell_in_box P Laws).
Qed.

Lemma not_covers s x y :
  x < bx0 (shape_box s) ∨ bx1 (shape_box s) < x ∨
  y < by0 (shape_box s) ∨ by1 (shape_box s) < y →
  covers s x y = false.
Proof.
  intros H. apply not_true_iff_false. intros Hc%covers_in_box.
  rewrite in_box_false in Hc by done. discriminate.
Qed.

Lemma dots_colours size sc : sc ∈ dots size → sc.2 = purple_a ∨ sc.2 = purple_b.
Proof.
  unfold dots, dot_row. rewrite !elem_of_app, !list_elem_of_fmap.
  intros [(i & -> & _)|[(i & -> & _)|(i & -> & _)]]; auto.
Qed.

Lemma corner_pixels_white size x y :
  7 ≤ size < 2 ^ 31 → x = 0 ∨ x = size - 1 → y = 0 ∨ y = size - 1 →
  getpixel (draw_calendar_icon size) x y = Some white.
Proof.
  intros Hs Hx Hy. assert (Hs' : 0 ≤ size < 2 ^ 31) by lia.
  layout_facts size Hs'.
  rewrite getpixel_draw_calendar_icon by lia.
  assert (Hm : covers (mask_shape size (bg_radius size)) x y = false).
  { unfold mask_shape. cbn [covers].
    apply (rr_corners P Laws); cbn [bx0 by0 bx1 by1]; try lia;
      layout_rewrite; layout_arith. }
  rewrite Hm. f_equal. apply top_ink_uncovered.
  rewrite calendar_content_eq.
  repeat apply Forall_cons_2; try apply Forall_nil_2;
    cbn [fst]; apply not_covers;
    unfold body_shape, header_shape, dot_shape;
    cbn [shape_box bx0 by0 bx1 by1];
    layout_rewrite; layout_arith.
Qed.

Lemma centre_in_mask size :
  7 ≤ size < 2 ^ 31 →
  covers (mask_shape size (bg_radius size)) (size / 2) (size / 2) = true.
Proof.
  intros Hs. assert (Hs' : 0 ≤ size < 2 ^ 31) by lia. layout_facts size Hs'.
  unfold mask_shape. cbn [covers].
  apply (rr_columns P Laws); cbn [bx0 by0 bx1 by1]; layout_rewrite; layout_arith.
Qed.

Lemma centre_pixel_content size :
  7 ≤ size < 2 ^ 31 →
  ∃ c, getpixel (draw_calendar_icon size) (size / 2) (size / 2) = Some c ∧
       (c = body_gray ∨ c = purple_a ∨ c = purple_b).
Proof.
  intros Hs. assert (Hs' : 0 ≤ size < 2 ^ 31) by lia. layout_facts size Hs'.
  rewrite getpixel_draw_calendar_icon by (pow_numerals; Z.div_mod_to_equations; lia).
  eexists. split; [reflexivity|].
  change (calendar_content size) with
    ([(body_shape size, body_gray); (header_shape size, white)] ++ dots size).
  rewrite top_ink_app. cbn [top_ink foldl fst snd].
  assert (Hb : covers (body_shape size) (size / 2) (size / 2) = true).
  { unfold body_shape. cbn [covers].
    apply (rr_columns P Laws); cbn [bx0 by0 bx1 by1]; layout_rewrite; layout_arith. }
  assert (Hh : covers (header_shape size) (size / 2) (size / 2) = false).
  { apply not_covers. unfold header_shape. cbn [shape_box bx0 by0 bx1 by1].
    layout_rewrite; layout_arith. }
  rewrite Hb, Hh.
  destruct (top_ink_elem (dots size) (size / 2) (size / 2) body_gray)
    as [->|(sc & Hin & _ & ->)]; [auto|].
  destruct (dots_colours size sc Hin) as [->| ->]; auto.
Qed.


End WithLaws.


Lemma ideal_ellipse_in_box b px py :
  ideal_ellipse b px py = true → in_box b px py = true.
Proof.
  unfold ideal_ellipse. rewrite !andb_true_iff. tauto.
Qed.

Lemma ideal_rounded_region_in_box b r px py :
  ideal_rounded_region b r px py = true → in_box b px py = true.
Proof.
  unfold ideal_rounded_region. rewrite !andb_true_iff. tauto.
Qed.

Lemma ideal_rounded_region_columns b r px py :
  0 ≤ r → bx0 b + r < px < bx1 b - r → by0 b ≤ py ≤ by1 b →
  ideal_rounded_region b r px py = true.
Proof.
  destruct b as [x0 y0 x1 y1]. cbn [bx0 by0 bx1 by1]. intros Hr Hx Hy.
  unfold ideal_rounded_region. cbn [bx0 by0 bx1 by1].
  apply andb_true_iff. split; [apply in_box_true; cbn; lia|].
  apply Z.leb_le.
  set (r' := Z.max 0 (Z.min r (Z.min ((x1 - x0) / 2) ((y1 - y0) / 2)))).
  assert (0 ≤ r' ≤ r) by (unfold r'; lia).
  rewrite (Z.max_l 0 (Z.max (x0 + r' - px) (px - (x1 - r')))) by lia.
  nia.
Qed.

Lemma ideal_rounded_region_rows b r px py :
  0 ≤ r → by0 b + r < py < by1 b - r → bx0 b ≤ px ≤ bx1 b →
  ideal_rounded_region b r px py = true.
Proof.
  destruct b as [x0 y0 x1 y1]. cbn [bx0 by0 bx1 by1]. intros Hr Hy Hx.
  unfold ideal_rounded_region. cbn [bx0 by0 bx1 by1].
  apply andb_true_iff. split; [apply in_box_true; cbn; lia|].
  apply Z.leb_le.
  set (r' := Z.max 0 (Z.min r (Z.min ((x1 - x0) / 2) ((y1 - y0) / 2)))).
  assert (0 ≤ r' ≤ r) by (unfold r'; lia).
  rewrite (Z.max_l 0 (Z.max (y0 + r' - py) (py - (y1 - r')))) by lia.
  nia.
Qed.

Lemma ideal_rounded_region_corners b r px py :
  1 ≤ r → 2 * r + 2 ≤ bx1 b - bx0 b → 2 * r + 2 ≤ by1 b - by0 b →
  (px = bx0 b ∨ px = bx1 b) → (py = by0 b ∨ py = by1 b) →
  ideal_rounded_region b r px py = false.
Proof.
  destruct b as [x0 y0 x1 y1]. cbn [bx0 by0 bx1 by1]. intros Hr Hw Hh Hx Hy.
  unfold ideal_rounded_region. cbn [bx0 by0 bx1 by1].
  apply andb_false_iff. right. apply Z.leb_gt.
  assert (E : Z.max 0 (Z.min r (Z.min ((x1 - x0) / 2) ((y1 - y0) / 2))) = r)
    by (Z.div_mod_to_equations; lia).
  rewrite E.
  assert (Z.max 0 (Z.max (x0 + r - px) (px - (x1 - r))) = r) as -> by lia.
  assert (Z.max 0 (Z.max (y0 + r - py) (py - (y1 - r))) = r) as -> by lia.
  nia.
Qed.

(** With separate left and right arcs the shape is the rounded region. *)
Lemma ideal_rounded_rectangle_wide b r px py :
  2 * r + 2 ≤ bx1 b - bx0 b →
  ideal_rounded_rectangle b r px py = ideal_rounded_region b r px py.
Proof.
  intros Hw. unfold ideal_rounded_rectangle.
  destruct (Z.leb_spec (bx1 b - bx0 b - 1) (2 * r)); [lia|]. reflexivity.
Qed.

Lemma ideal_pillow_laws : PillowLaws ideal_pillow.
Proof.
  split; simpl.
  - intros b r px py. unfold ideal_rounded_rectangle.
    destruct (_ && _).
    + apply ideal_ellipse_in_box.
    + apply ideal_rounded_region_in_box.
  - apply ideal_ellipse_in_box.
  - intros b r px py Hr Hx Hy.
    rewrite ideal_rounded_rectangle_wide by lia.
    by apply ideal_rounded_region_columns.
  - intros b r px py Hr Hy Hx. unfold ideal_rounded_rectangle.
    destruct (Z.leb_spec (bx1 b - bx0 b - 1) (2 * r)) as [Hfx|Hfx]; cbn [andb].
    + destruct (Z.leb_spec (by1 b - by0 b - 1) (bx1 b - bx0 b)) as [Hfy|Hfy].
      * (* all arcs joined: the one row between them is the middle row *)
        unfold ideal_ellipse.
        assert (Hv : 2 * py - by0 b - by1 b = 0) by lia.
        rewrite Hv. rewrite !andb_true_iff. split; [split|].
        -- apply negb_true_iff, andb_false_iff. right. apply Z.eqb_neq. lia.
        -- apply in_box_true. lia.
        -- apply Z.leb_le.
           assert (Hu : (2 * px - bx0 b - bx1 b) * (2 * px - bx0 b - bx1 b)
                        ≤ (bx1 b - bx0 b) * (bx1 b - bx0 b)) by nia.
           pose proof (Z.mul_le_mono_nonneg_r _ _
             ((by1 b - by0 b) * (by1 b - by0 b)) ltac:(nia) Hu).
           lia.
      * by apply ideal_rounded_region_rows.
    + destruct (Z.leb_spec (by1 b - by0 b - 1) (2 * r)); [lia|].
      by apply ideal_rounded_region_rows.
  - intros b r px py Hr Hw Hh Hx Hy.
    rewrite ideal_rounded_rectangle_wide by lia.
    by apply ideal_rounded_region_corners.
Qed.



(** ** The program *)

Section ProgramFacts.
Context `{P : Pillow} (env : Env).

Lemma generate_icon_ok size w :
  draw_error env size = None → save_error env (icon_filename size) = None →
  generate_icon env size w = (Return (), success w size).
Proof.
  intros Hd Hs. unfold generate_icon, call_draw_calendar_icon, save, success.
  rewrite Hd, Hs. cbn. unfold mbind, M_bind, print. cbn.
  rewrite <- app_assoc. done.
Qed.

Lemma generate_icon_draw_fails size msg w :
  draw_error env size = Some msg →
  ∃ w', generate_icon env size w = (Raise msg, w') ∧ files w' = files w.
Proof.
  intros Hd. unfold generate_icon, call_draw_calendar_icon. rewrite Hd.
  eexists. split; [reflexivity|done].
Qed.

Lemma generate_icon_save_fails size msg w :
  draw_error env size = None → save_error env (icon_filename size) = Some msg →
  ∃ w', generate_icon env size w = (Raise msg, w') ∧ files w' = files w.
Proof.
  intros Hd Hs. unfold generate_icon, call_draw_calendar_icon, save.
  rewrite Hd, Hs. eexists. split; [reflexivity|done].
Qed.

End ProgramFacts.


Section ProgramFacts2.
Context `{P : Pillow} (env : Env).

Lemma generate_icon_cases size w :
  match icon_error env size with
  | None => generate_icon env size w = (Return (), success w size)
  | Some msg =>
      generate_icon env size w =
      (Raise msg,
       {| stdout := stdout w ++
            ["Generating " +:+ pretty size +:+ "x" +:+ pretty size +:+ " icon..."];
          files := files w |})
  end.
Proof.
  unfold icon_error, generate_icon, call_draw_calendar_icon, save, success.
  destruct (draw_error env size) as [msg|]; [reflexivity|].
  destruct (save_error env (icon_filename size)) as [msg|]; [reflexivity|].
  cbn. unfold mbind, M_bind, print. cbn. rewrite <- app_assoc. done.
Qed.

Lemma generate_icon_returns size w w' :
  generate_icon env size w = (Return (), w') → w' = success w size.
Proof.
  pose proof (generate_icon_cases size w) as H.
  destruct (icon_error env size); rewrite H; [discriminate|]. by intros [= <-].
Qed.

Lemma run_without_pil w :
  pil_available env = false →
  run env w = (0, {| stdout := stdout w ++ ["PIL/Pillow not available."; fallback_advice];
                     files := files w |}).
Proof.
  intros H. unfold run, script. rewrite H.
  unfold mbind, M_bind, print, sys_exit. cbn [stdout files].
  rewrite <- app_assoc. done.
Qed.

Lemma print_print_exit (a b : string) (c : Z) (w : World) :
  (print a ≫= λ _, print b ≫= λ _, sys_exit (A:=unit) c) w =
  (Exit c, {| stdout := stdout w ++ [a; b]; files := files w |}).
Proof.
  unfold mbind, M_bind, print, sys_exit. cbn [stdout files].
  rewrite <- app_assoc. done.
Qed.

Lemma run_with_error w msg :
  pil_available env = true → first_error env = Some msg →
  ∃ out fs,
    run env w =
    (1, {| stdout := out ++ ["Error generating icons: " +:+ msg;
                             "
Fallback: " +:+ fallback_advice];
           files := fs |}) ∧
    (icon_error env 192 = Some msg → fs = files w).
Proof.
  intros Hp He. unfold run, script, main. rewrite Hp.
  unfold first_error in He.
  unfold mbind at 1. unfold M_bind at 1. cbn [print].
  unfold try_except.
  set (w0 := {| stdout := _; files := files w |}).
  unfold mbind at 1. unfold M_bind at 1.
  pose proof (generate_icon_cases 192 w0) as H1.
  destruct (icon_error env 192) as [m1|] eqn:E1.
  - injection He as ->. rewrite H1, print_print_exit.
    eexists _, _. split; [reflexivity|]. done.
  - rewrite H1.
    unfold mbind at 1. unfold M_bind at 1.
    pose proof (generate_icon_cases 512 (success w0 192)) as H2.
    rewrite He in H2. rewrite H2, print_print_exit.
    eexists _, _. split; [reflexivity|]. intros [=].
Qed.

End ProgramFacts2.

(* ===================================================================== *)
(** * Part IV: the properties of the specification                        *)
(* ===================================================================== *)

(** C1.  For every size (below 2^31, the range of a Pillow dimension) and
    every scanline [y] in [[0, size)], every pixel of row [y] of the image
    built by lines 26-36, before the corners are rounded, is the
    channel-wise blend of (102,110,234) and (118,75,162) at ratio [y/size]
    truncated to an integer, the blend being taken in exact arithmetic: the
    binary64 computation of the script never departs from it.  The top row is
    (102,110,234), and from a row to any row below it each channel moves,
    non-strictly, toward the channel of (118,75,162). *)
Theorem C1_gradient_rows `{P : Pillow} (size x y y' : Z) :
  0 < size < 2 ^ 31 → 0 ≤ x < size → 0 ≤ y → y ≤ y' → y' < size →
  getpixel (gradient_background size) x y =
    Some (blend_spec 102 118 y size, blend_spec 110 75 y size,
          blend_spec 234 162 y size) ∧
  getpixel (gradient_background size) x 0 = Some (102, 110, 234) ∧
  (blend_spec 102 118 y size ≤ blend_spec 102 118 y' size ≤ 118 ∧
   75 ≤ blend_spec 110 75 y' size ≤ blend_spec 110 75 y size ∧
   162 ≤ blend_spec 234 162 y' size ≤ blend_spec 234 162 y size).
Proof.
  intros Hs Hx Hy Hyy Hy'. repeat split.
  - rewrite getpixel_gradient_background, gradient_color_exact by lia. done.
  - rewrite getpixel_gradient_background, gradient_color_exact by lia.
    rewrite !blend_spec_top by lia. done.
  - apply (blend_spec_toward 102 118 y y' size); lia.
  - apply (blend_spec_toward 102 118 y y' size); lia.
  - apply (blend_spec_toward 110 75 y y' size); lia.
  - apply (blend_spec_toward 110 75 y y' size); lia.
  - apply (blend_spec_toward 234 162 y y' size); lia.
  - apply (blend_spec_toward 234 162 y y' size); lia.
Qed.

Lemma C1_gradient_rows_witness :
  getpixel (gradient_background (P:=ideal_pillow) 192) 96 10 =
    Some (blend_spec 102 118 10 192, blend_spec 110 75 10 192,
          blend_spec 234 162 10 192) ∧
  getpixel (gradient_background (P:=ideal_pillow) 192) 96 0 = Some (102, 110, 234) ∧
  (blend_spec 102 118 10 192 ≤ blend_spec 102 118 100 192 ≤ 118 ∧
   75 ≤ blend_spec 110 75 100 192 ≤ blend_spec 110 75 10 192 ∧
   162 ≤ blend_spec 234 162 100 192 ≤ blend_spec 234 162 10 192).
Proof.
  apply (C1_gradient_rows (P:=ideal_pillow) 192 96 10 100);
    vm_compute; (split || idtac); congruence.
Defined.

(** C2 (amended).  For every size from 7 up (below 2^31), with a rasteriser
    that obeys [PillowLaws]: the pixels at the four corners (0,0),
    (size-1,0), (0,size-1), (size-1,size-1) of the image returned by
    [draw_calendar_icon] are the white fallback (255,255,255), the centre
    pixel (size/2, size/2) lies inside the rounded-rectangle mask, and it is
    not the white fallback. *)
Theorem C2_corners_and_centre `{P : Pillow} (size : Z) :
  PillowLaws P → 7 ≤ size < 2 ^ 31 →
  (∀ x y, x = 0 ∨ x = size - 1 → y = 0 ∨ y = size - 1 →
          getpixel (draw_calendar_icon size) x y = Some white) ∧
  covers (mask_shape size (bg_radius size)) (size / 2) (size / 2) = true ∧
  ∃ c, getpixel (draw_calendar_icon size) (size / 2) (size / 2) = Some c ∧
       c ≠ white.
Proof.
  intros Laws Hs. split; [|split].
  - intros x y Hx Hy. by apply corner_pixels_white.
  - by apply centre_in_mask.
  - destruct (centre_pixel_content Laws size Hs) as (c & Hc & Hcol).
    exists c. split; [done|].
    destruct Hcol as [->|[->| ->]]; discriminate.
Qed.

Lemma C2_corners_and_centre_witness :
  (∀ x y, x = 0 ∨ x = 192 - 1 → y = 0 ∨ y = 192 - 1 →
          getpixel (draw_calendar_icon (P:=ideal_pillow) 192) x y = Some white) ∧
  covers (P:=ideal_pillow) (mask_shape 192 (bg_radius 192)) (192 / 2) (192 / 2) = true ∧
  ∃ c, getpixel (draw_calendar_icon (P:=ideal_pillow) 192) (192 / 2) (192 / 2) = Some c ∧
       c ≠ white.
Proof.
  apply (C2_corners_and_centre (P:=ideal_pillow) 192).
  - exact ideal_pillow_laws.
  - vm_compute. split; congruence.
Defined.

(** At size 6 the radius [int(6 * 0.15)] is 0, the mask is the whole square,
    and the corner (0,0) keeps the colour of the first gradient row. *)
Lemma C2_counterexample :
  bg_radius 6 = 0 ∧
  getpixel (draw_calendar_icon (P:=ideal_pillow) 6) 0 0 = Some (102, 110, 234) ∧
  getpixel (draw_calendar_icon (P:=ideal_pillow) 6) 0 0 ≠ Some white.
Proof. vm_compute. repeat split; congruence. Qed.

(** C3 (amended).  For every size from 9 up (below 2^31), every coordinate
    of the bounding boxes of the calendar content drawn by
    [draw_calendar_icon] (the body, the header band and the eight dots,
    each dot with its box of half-width [dot_size] around its centre) lies
    within [[0.2 * size, 0.8 * size]] on both axes. *)
Theorem C3_content_in_safe_zone (size : Z) :
  9 ≤ size < 2 ^ 31 →
  Forall (λ sc, box_in_safe_zone size (shape_box sc.1) = true)
         (calendar_content size).
Proof. apply safe_zone_content. Qed.

Lemma C3_content_in_safe_zone_witness :
  Forall (λ sc, box_in_safe_zone 192 (shape_box sc.1) = true)
         (calendar_content 192).
Proof.
  apply (C3_content_in_safe_zone 192). vm_compute. split; congruence.
Defined.

(** At size 8 the safe zone starts at [int(8 * 0.2)] = 1 and the body
    is lowered by [int(6 * 0.15)] = 0: the body is drawn from (2,1) to
    (6,4), and its top edge 1 is above the line 0.2 * 8 = 1.6. *)
Lemma C3_counterexample :
  body_shape 8 = RoundedRectangle (Box 2 1 6 4) 0 ∧
  box_in_safe_zone 8 (shape_box (body_shape 8)) = false ∧
  ¬ Forall (λ sc, box_in_safe_zone 8 (shape_box sc.1) = true)
           (calendar_content 8).
Proof.
  split; [|split]; [vm_compute; reflexivity ..|].
  intros H. apply Forall_cons_1 in H as [H _]. vm_compute in H. discriminate.
Qed.

(** C4 (amended).  For every positive size (below 2^31), the corner radius
    used to build the background mask is [0.15 * size] truncated to an
    integer, that is [15 * size / 100] rounded down, and the mask is the
    rounded rectangle from (0,0) to (size-1, size-1) with that radius. *)
Theorem C4_mask_radius `{P : Pillow} (size : Z) :
  0 < size < 2 ^ 31 →
  bg_radius size = 15 * size / 100 ∧
  create_rounded_rectangle_mask size (bg_radius size) =
  draw (Image_new size size 0)
       (RoundedRectangle (Box 0 0 (size - 1) (size - 1)) (15 * size / 100)) 255.
Proof.
  intros Hs. rewrite (bg_radius_floor size Hs). split; reflexivity.
Qed.

Lemma C4_mask_radius_witness :
  bg_radius 192 = 15 * 192 / 100 ∧
  create_rounded_rectangle_mask (P:=ideal_pillow) 192 (bg_radius 192) =
  draw (P:=ideal_pillow) (Image_new 192 192 0)
       (RoundedRectangle (Box 0 0 (192 - 1) (192 - 1)) (15 * 192 / 100)) 255.
Proof.
  apply (C4_mask_radius (P:=ideal_pillow) 192). vm_compute. split; congruence.
Defined.

(** At size 192, [0.15 * size] is 28.8: the script's radius is 28, the
    nearest integer is 29. *)
Lemma C4_counterexample :
  bg_radius 192 = 28 ∧ nearest_radius 192 = 29 ∧
  bg_radius 192 ≠ nearest_radius 192.
Proof. vm_compute. repeat split; congruence. Qed.

(** C6.  When PIL cannot be imported the program prints the two lines of
    the fallback instructions, leaves the files of the working directory as
    they were, and exits with status 0. *)
Theorem C6_no_pil `{P : Pillow} (env : Env) (w : World) :
  pil_available env = false →
  run env w =
  (0, {| stdout := stdout w ++ ["PIL/Pillow not available."; fallback_advice];
         files := files w |}).
Proof. apply run_without_pil. Qed.

Lemma C6_no_pil_witness :
  run (P:=ideal_pillow) no_pil empty_world =
  (0, {| stdout := stdout empty_world ++ ["PIL/Pillow not available."; fallback_advice];
         files := files empty_world |}).
Proof. apply (C6_no_pil (P:=ideal_pillow) no_pil empty_world). reflexivity. Defined.

(** C7.  If computing or saving an icon raises during the main run, the
    exception is caught at the top level: the last two lines printed are
    the error with its message and the fallback advice, and the program
    exits with status 1. *)
Theorem C7_generation_failure `{P : Pillow} (env : Env) (w : World) (msg : string) :
  pil_available env = true → first_error env = Some msg →
  ∃ out fs,
    run env w =
    (1, {| stdout := out ++ ["Error generating icons: " +:+ msg;
                             "
Fallback: " +:+ fallback_advice];
           files := fs |}).
Proof.
  intros Hp He. destruct (run_with_error env w msg Hp He) as (out & fs & H & _).
  eauto.
Qed.

Lemma C7_generation_failure_witness :
  ∃ out fs,
    run (P:=ideal_pillow) disk_full empty_world =
    (1, {| stdout := out ++ ["Error generating icons: " +:+ "disk full";
                             "
Fallback: " +:+ fallback_advice];
           files := fs |}).
Proof.
  apply (C7_generation_failure (P:=ideal_pillow) disk_full empty_world "disk full");
    reflexivity.
Defined.



(** C9.  For every positive size the image returned by
    [draw_calendar_icon], which is the one [generate_icon] encodes and
    saves, has [size] rows of [size] pixels each. *)
Theorem C9_dimensions `{P : Pillow} (size : Z) :
  0 < size →
  height (draw_calendar_icon size) = size ∧
  has_width size (draw_calendar_icon size).
Proof. intros Hs. apply draw_calendar_icon_dimensions. lia. Qed.

Lemma C9_dimensions_witness :
  height (draw_calendar_icon (P:=ideal_pillow) 12) = 12 ∧
  has_width 12 (draw_calendar_icon (P:=ideal_pillow) 12).
Proof. apply (C9_dimensions (P:=ideal_pillow) 12). lia. Defined.

(** C10 (amended).  For the sizes 192 and 512, and for any size (below
    2^31) whose [cal_width] is at least 60, the bottom edge of the third
    row of dots, [start_y + 2 * dot_spacing + dot_size], lies strictly below
    the bottom edge [cal_y + cal_height] of the calendar body, and still
    within the safe zone. *)
Theorem C10_third_row_protrudes (size : Z) :
  0 < size < 2 ^ 31 → size = 192 ∨ size = 512 ∨ 60 ≤ cal_width size →
  body_bottom size < third_row_bottom size ∧
  coord_in_safe_zone size (third_row_bottom size) = true.
Proof. apply third_row_protrudes. Qed.

Lemma C10_third_row_protrudes_witness :
  body_bottom 192 < third_row_bottom 192 ∧
  coord_in_safe_zone 192 (third_row_bottom 192) = true.
Proof.
  apply (C10_third_row_protrudes 192).
  - vm_compute. split; congruence.
  - left. reflexivity.
Defined.

(** At size 63 the body is 25 wide and the third row of dots ends exactly
    on the bottom edge of the body (row 39), not below it. *)
Lemma C10_counterexample :
  25 ≤ cal_width 63 ∧ body_bottom 63 = 39 ∧ third_row_bottom 63 = 39 ∧
  ¬ (body_bottom 63 < third_row_bottom 63).
Proof. vm_compute. repeat split; congruence. Qed.

(* ===================================================================== *)
(** * Part V: further properties of the script                            *)
(* ===================================================================== *)

(** ** The main block *)

Section RunFacts.
Context `{P : Pillow} (env : Env).

Lemma print2 (a b : string) (w : World) :
  (print a ≫= λ _, print b) w =
  (Return (), {| stdout := stdout w ++ [a; b]; files := files w |}).
Proof.
  unfold mbind, M_bind, print. cbn [stdout files]. rewrite <- app_assoc. done.
Qed.

(** The three ways the main block can go. *)
Lemma run_with_pil w :
  pil_available env = true →
  run env w =
  match icon_error env 192 with
  | Some m =>
      (1, {| stdout := stdout w ++
               [banner; generating 192; error_line m; fallback_line];
             files := files w |})
  | None =>
      let bytes192 := png_encode (draw_calendar_icon 192) in
      match icon_error env 512 with
      | Some m =>
          (1, {| stdout := stdout w ++
                   [banner; generating 192; created 192; generating 512;
                    error_line m; fallback_line];
                 files := <[icon_filename 192 := bytes192]> (files w) |})
      | None =>
          (0, {| stdout := stdout w ++
                   [banner; generating 192; created 192; generating 512;
                    created 512; all_generated; maskable_note];
                 files := <[icon_filename 512 := png_encode (draw_calendar_icon 512)]>
                            (<[icon_filename 192 := bytes192]> (files w)) |})
      end
  end.
Proof.
  intros Hp. unfold run, script, main. rewrite Hp.
  unfold mbind at 1. unfold M_bind at 1. cbn [print].
  unfold try_except.
  set (w0 := {| stdout := _; files := files w |}).
  unfold mbind at 1. unfold M_bind at 1.
  pose proof (generate_icon_cases env 192 w0) as H1.
  destruct (icon_error env 192) as [m1|] eqn:E1.
  - rewrite H1, print_print_exit. cbn [stdout files]. subst w0. cbn [stdout].
    rewrite <- !app_assoc. reflexivity.
  - rewrite H1.
    unfold mbind at 1. unfold M_bind at 1.
    pose proof (generate_icon_cases env 512 (success w0 192)) as H2.
    cbv zeta.
    destruct (icon_error env 512) as [m2|] eqn:E2.
    + rewrite H2, print_print_exit. unfold success. subst w0. cbn [stdout files].
      rewrite <- !app_assoc. reflexivity.
    + rewrite H2, print2. unfold success. subst w0. cbn [stdout files].
      rewrite <- !app_assoc. reflexivity.
Qed.

End RunFacts.

Lemma string_length_append (s t : string) :
  String.length (s +:+ t) = (String.length s + String.length t)%nat.
Proof.
  induction s as [|a s IH]; [done|].
  change (String a s +:+ t) with (String a (s +:+ t)).
  cbn [String.length]. by rewrite IH.
Qed.

Lemma string_append_inj_r (s1 s2 t : string) : s1 +:+ t = s2 +:+ t → s1 = s2.
Proof.
  revert s2. induction s1 as [|a s1 IH]; intros [|b s2] H.
  - done.
  - apply (f_equal String.length) in H.
    rewrite !string_length_append in H. cbn [String.length] in H. lia.
  - apply (f_equal String.length) in H.
    rewrite !string_length_append in H. cbn [String.length] in H. lia.
  - change (String a (s1 +:+ t) = String b (s2 +:+ t)) in H.
    injection H as -> H. f_equal. by apply IH.
Qed.

Lemma icon_filename_inj (a b : Z) : icon_filename a = icon_filename b → a = b.
Proof.
  unfold icon_filename. intros H.
  apply (String.app_inj "icon-") in H.
  apply string_append_inj_r in H. by apply pretty_Z_inj in H.
Qed.

Lemma icon_filename_192_512 : icon_filename 192 ≠ icon_filename 512.
Proof. intros H%icon_filename_inj. discriminate. Qed.

Lemma first_error_None `{P : Pillow} (env : Env) :
  first_error env = None → icon_error env 192 = None ∧ icon_error env 512 = None.
Proof. unfold first_error. destruct (icon_error env 192); [discriminate|done]. Qed.




(** X2.  If a drawing call raises while the first icon is being drawn, the
    program stops there: the second icon is never started, no file is
    written or changed, the error and the fallback advice are printed, and
    the exit status is 1. *)
Theorem X2_first_icon_fails `{P : Pillow} (env : Env) (w : World) (msg : string) :
  pil_available env = true → draw_error env 192 = Some msg →
  run env w =
  (1, {| stdout := stdout w ++
           [banner; generating 192; error_line msg; fallback_line];
         files := files w |}).
Proof.
  intros Hp Hd. rewrite run_with_pil by done.
  unfold icon_error. rewrite Hd. reflexivity.
Qed.

Lemma X2_first_icon_fails_witness :
  run (P:=ideal_pillow) old_pillow empty_world =
  (1, {| stdout := stdout empty_world ++
           [banner; generating 192;
            error_line "'ImageDraw' object has no attribute 'rounded_rectangle'";
            fallback_line];
         files := files empty_world |}).
Proof.
  apply (X2_first_icon_fails (P:=ideal_pillow) old_pillow empty_world); reflexivity.
Defined.

(** X3.  If the first icon is generated and the second one raises, the
    program exits with status 1 without undoing anything: icon-192.png
    stays written with the first icon's bytes, and the log shows the first
    icon created, the second one started, then the error and the fallback
    advice. *)
Theorem X3_second_icon_fails `{P : Pillow} (env : Env) (w : World) (msg : string) :
  pil_available env = true →
  icon_error env 192 = None → icon_error env 512 = Some msg →
  (run env w).1 = 1 ∧
  files (run env w).2 !! "icon-192.png" = Some (png_encode (draw_calendar_icon 192)) ∧
  stdout (run env w).2 =
    stdout w ++ [banner; generating 192; created 192; generating 512;
                 error_line msg; fallback_line].
Proof.
  intros Hp E1 E2. rewrite run_with_pil, E1, E2 by done. cbn [fst snd files stdout].
  split; [done|]. split; [|done]. apply lookup_insert_eq.
Qed.

Lemma X3_second_icon_fails_witness :
  (run (P:=ideal_pillow) disk_full empty_world).1 = 1 ∧
  files (run (P:=ideal_pillow) disk_full empty_world).2 !! "icon-192.png" =
    Some (@png_encode ideal_pillow (draw_calendar_icon (P:=ideal_pillow) 192)) ∧
  stdout (run (P:=ideal_pillow) disk_full empty_world).2 =
    stdout empty_world ++ [banner; generating 192; created 192; generating 512;
                           error_line "disk full"; fallback_line].
Proof.
  apply (X3_second_icon_fails (P:=ideal_pillow) disk_full empty_world); reflexivity.
Defined.


(** X5.  Whatever happens, the program touches no file other than
    icon-192.png and icon-512.png, and it only appends to standard output. *)
Theorem X5_run_frame `{P : Pillow} (env : Env) (w : World) (f : string) :
  f ≠ "icon-192.png" → f ≠ "icon-512.png" →
  files (run env w).2 !! f = files w !! f ∧
  stdout w `prefix_of` stdout (run env w).2.
Proof.
  intros H1 H2.
  destruct (pil_available env) eqn:Hp.
  - rewrite run_with_pil by done.
    destruct (icon_error env 192) as [m1|]; cbn [fst snd files stdout].
    { split; [done|]. by eexists. }
    destruct (icon_error env 512) as [m2|]; cbn [fst snd files stdout].
    { split; [|by eexists]. by rewrite lookup_insert_ne. }
    split; [|by eexists]. by rewrite !lookup_insert_ne.
  - rewrite run_without_pil by done. cbn. split; [done|]. by eexists.
Qed.

Lemma X5_run_frame_witness :
  files (run (P:=ideal_pillow) disk_full empty_world).2 !! "manifest.json" =
    files empty_world !! "manifest.json" ∧
  stdout empty_world `prefix_of` stdout (run (P:=ideal_pillow) disk_full empty_world).2.
Proof.
  apply (X5_run_frame (P:=ideal_pillow) disk_full empty_world "manifest.json");
    vm_compute; congruence.
Defined.

(** X6.  A successful run followed by another leaves the files exactly as
    the first run left them: the icons are rewritten with the same bytes. *)
Theorem X6_rerun `{P : Pillow} (env : Env) (w : World) :
  pil_available env = true → first_error env = None →
  files (run env (run env w).2).2 = files (run env w).2.
Proof.
  intros Hp [E1 E2]%first_error_None.
  rewrite !run_with_pil, E1, E2 by done. cbn [fst snd files stdout].
  apply map_eq. intros f.
  destruct (decide (f = icon_filename 512)) as [->|N2].
  { by rewrite !lookup_insert_eq. }
  rewrite !(lookup_insert_ne _ (icon_filename 512)) by done.
  destruct (decide (f = icon_filename 192)) as [->|N1].
  { by rewrite !lookup_insert_eq. }
  rewrite !(lookup_insert_ne _ (icon_filename 192)) by done.
  by rewrite !lookup_insert_ne.
Qed.

Lemma X6_rerun_witness :
  files (run (P:=ideal_pillow) no_errors
           (run (P:=ideal_pillow) no_errors empty_world).2).2 =
  files (run (P:=ideal_pillow) no_errors empty_world).2.
Proof. apply (X6_rerun (P:=ideal_pillow) no_errors empty_world); reflexivity. Defined.

(** X7.  Icons of different sizes are saved under different file names, so
    one never overwrites another. *)
Theorem X7_filenames_distinct (a b : Z) :
  a ≠ b → icon_filename a ≠ icon_filename b.
Proof. intros Hab H%icon_filename_inj. done. Qed.

Lemma X7_filenames_distinct_witness : icon_filename 192 ≠ icon_filename 512.
Proof. apply (X7_filenames_distinct 192 512). lia. Defined.

(** ** The layout *)

(** X8.  In the layout of [draw_calendar_icon] every [int(n * c)] with [c]
    one of 0.2, 0.15, 0.9, 0.04, 0.08 and 0.4 is the exact product rounded
    down: for sizes below 2^31 binary64 rounding never moves one of these
    coordinates. *)
Theorem X8_layout_floors (size : Z) :
  0 ≤ size < 2 ^ 31 →
  safe_zone size = size / 5 ∧
  padding size = content_size size / 5 ∧
  cal_height size = 9 * cal_width size / 10 ∧
  cal_y size = content_y size + 3 * content_size size / 20 ∧
  cal_radius size = size / 25 ∧
  header_height size = cal_height size / 5 ∧
  dot_size size = 2 * cal_width size / 25 ∧
  start_y size = cal_y size + 2 * cal_height size / 5.
Proof.
  intros Hs. layout_facts size Hs.
  repeat split; try done.
  - unfold content_y. rewrite Lcy, Lsz. done.
  - rewrite Lhh. Z.div_mod_to_equations; lia.
Qed.

Lemma X8_layout_floors_witness :
  safe_zone 192 = 192 / 5 ∧
  padding 192 = content_size 192 / 5 ∧
  cal_height 192 = 9 * cal_width 192 / 10 ∧
  cal_y 192 = content_y 192 + 3 * content_size 192 / 20 ∧
  cal_radius 192 = 192 / 25 ∧
  header_height 192 = cal_height 192 / 5 ∧
  dot_size 192 = 2 * cal_width 192 / 25 ∧
  start_y 192 = cal_y 192 + 2 * cal_height 192 / 5.
Proof. apply (X8_layout_floors 192). vm_compute. split; congruence. Defined.

(** X9.  The offset [int(dot_spacing * 0.7)] of the first dot column is
    the exact [7 * dot_spacing / 10] rounded down, or one less; it is the
    exact value whenever [dot_spacing] is not a multiple of 10.  The lower
    value does occur: at size 1000 the spacing is 90 and the offset is 62,
    because the binary64 product 90 * 0.7 falls just short of 63. *)
Theorem X9_start_x_offset (size : Z) :
  0 ≤ size < 2 ^ 31 →
  (7 * dot_spacing size / 10 - 1 ≤ start_x size - cal_x size
     ≤ 7 * dot_spacing size / 10) ∧
  (dot_spacing size mod 10 ≠ 0 →
     start_x size - cal_x size = 7 * dot_spacing size / 10) ∧
  (dot_spacing 1000 = 90 ∧ start_x 1000 - cal_x 1000 = 62).
Proof.
  intros Hs. layout_facts size Hs. split; [lia|]. split.
  - intros Hm. specialize (Lsx' Hm). lia.
  - vm_compute. done.
Qed.

Lemma X9_start_x_offset_witness :
  (7 * dot_spacing 192 / 10 - 1 ≤ start_x 192 - cal_x 192
     ≤ 7 * dot_spacing 192 / 10) ∧
  (dot_spacing 192 mod 10 ≠ 0 →
     start_x 192 - cal_x 192 = 7 * dot_spacing 192 / 10) ∧
  (dot_spacing 1000 = 90 ∧ start_x 1000 - cal_x 1000 = 62).
Proof. apply (X9_start_x_offset 192). vm_compute. split; congruence. Defined.

(** X10.  From size 8 up the bounding boxes of any two different dots of
    the grid are disjoint: the dots never overlap. *)
Theorem X10_dots_disjoint (size i j i' j' : Z) :
  8 ≤ size < 2 ^ 31 →
  0 ≤ i ≤ 2 → 0 ≤ j ≤ 2 → 0 ≤ i' ≤ 2 → 0 ≤ j' ≤ 2 →
  (i, j) ≠ (i', j') →
  boxes_disjoint (shape_box (dot_shape size i j))
                 (shape_box (dot_shape size i' j')) = true.
Proof.
  intros Hs Hi Hj Hi' Hj' Hne.
  assert (Hs' : 0 ≤ size < 2 ^ 31) by lia. layout_facts size Hs'.
  assert (Hsep : 2 * dot_size size < dot_spacing size)
    by (layout_rewrite; layout_arith).
  assert (Hds : 0 ≤ dot_size size) by (layout_rewrite; layout_arith).
  unfold boxes_disjoint, dot_shape. cbn [shape_box bx0 by0 bx1 by1].
  rewrite !orb_true_iff, !Z.ltb_lt.
  clear - Hi Hj Hi' Hj' Hne Hsep Hds.
  assert (Hc : i ≠ i' ∨ j ≠ j').
  { destruct (decide (i = i')) as [->|]; [|by left].
    right. intros ->. done. }
  assert (i = 0 ∨ i = 1 ∨ i = 2) as Ei by lia.
  assert (i' = 0 ∨ i' = 1 ∨ i' = 2) as Ei' by lia.
  assert (j = 0 ∨ j = 1 ∨ j = 2) as Ej by lia.
  assert (j' = 0 ∨ j' = 1 ∨ j' = 2) as Ej' by lia.
  destruct Ei as [->|[->| ->]], Ei' as [->|[->| ->]],
           Ej as [->|[->| ->]], Ej' as [->|[->| ->]]; lia.
Qed.

Lemma X10_dots_disjoint_witness :
  boxes_disjoint (shape_box (dot_shape 192 0 0))
                 (shape_box (dot_shape 192 1 0)) = true.
Proof.
  apply (X10_dots_disjoint 192 0 0 1 0); vm_compute; (split || idtac); congruence.
Defined.

(** X11.  For every size below 2^31 the dots stay between the left and
    right edges of the calendar body, and from size 8 up the first row of
    dots lies strictly below the header band. *)
Theorem X11_dots_in_body (size : Z) :
  0 ≤ size < 2 ^ 31 →
  cal_x size ≤ start_x size - dot_size size ∧
  start_x size + 2 * dot_spacing size + dot_size size ≤ cal_x size + cal_width size ∧
  (8 ≤ size → cal_y size + header_height size < start_y size - dot_size size).
Proof.
  intros Hs. layout_facts size Hs.
  assert (Hx0 : dot_spacing size = 0 → start_x size = cal_x size).
  { intros E. unfold start_x. rewrite E.
    change (int_mul 0 lit_0_7) with 0. lia. }
  split; [|split].
  - destruct (decide (dot_spacing size = 0)) as [E|E];
      [specialize (Hx0 E)|clear Hx0]; layout_rewrite; layout_arith.
  - layout_rewrite; layout_arith.
  - intros H8. layout_rewrite; layout_arith.
Qed.

Lemma X11_dots_in_body_witness :
  cal_x 192 ≤ start_x 192 - dot_size 192 ∧
  start_x 192 + 2 * dot_spacing 192 + dot_size 192 ≤ cal_x 192 + cal_width 192 ∧
  (8 ≤ 192 → cal_y 192 + header_height 192 < start_y 192 - dot_size 192).
Proof. apply (X11_dots_in_body 192). vm_compute. split; congruence. Defined.

(** ** The gradient, row by row *)

Lemma blend_red_div y size :
  0 ≤ y < size → blend_spec 102 118 y size = (102 * size + 16 * y) / size.
Proof. intros. rewrite blend_spec_div by lia. f_equal. Qed.

Lemma blend_green_div y size :
  0 ≤ y < size → blend_spec 110 75 y size = (110 * size - 35 * y) / size.
Proof. intros. rewrite blend_spec_div by lia. f_equal. lia. Qed.

Lemma blend_blue_div y size :
  0 ≤ y < size → blend_spec 234 162 y size = (234 * size - 72 * y) / size.
Proof. intros. rewrite blend_spec_div by lia. f_equal. lia. Qed.

(** Quotients of numerators that differ by at most the divisor differ by at
    most one. *)
Lemma div_step (a b d : Z) : 0 < d → a ≤ b ≤ a + d → a / d ≤ b / d ≤ a / d + 1.
Proof.
  intros Hd Hab. split.
  - apply Z.div_le_mono; lia.
  - replace (a / d + 1) with ((a + 1 * d) / d) by (rewrite Z.div_add; lia).
    apply Z.div_le_mono; lia.
Qed.


(** X12.  The gradient never reaches its second colour: in every row the
    red channel is between 102 and 117, the green channel between 75 and
    110 and the blue channel between 162 and 234, so every channel is a
    valid byte. *)
Theorem X12_gradient_range (y size : Z) :
  0 ≤ y < size → size < 2 ^ 31 →
  ∃ r g b, gradient_color y size = (r, g, b) ∧
           102 ≤ r ≤ 117 ∧ 75 ≤ g ≤ 110 ∧ 162 ≤ b ≤ 234.
Proof.
  intros Hy Hs. rewrite gradient_color_exact by done.
  eexists _, _, _. split; [reflexivity|].
  rewrite blend_red_div, blend_green_div, blend_blue_div by done.
  assert (Hd : 0 < size) by lia. clear Hs.
  repeat split.
  - apply Z.div_le_lower_bound; lia.
  - apply Z.lt_succ_r. apply Z.div_lt_upper_bound; lia.
  - apply Z.div_le_lower_bound; lia.
  - apply Z.lt_succ_r. apply Z.div_lt_upper_bound; lia.
  - apply Z.div_le_lower_bound; lia.
  - apply Z.lt_succ_r. apply Z.div_lt_upper_bound; lia.
Qed.

Lemma X12_gradient_range_witness :
  ∃ r g b, gradient_color 191 192 = (r, g, b) ∧
           102 ≤ r ≤ 117 ∧ 75 ≤ g ≤ 110 ∧ 162 ≤ b ≤ 234.
Proof. apply (X12_gradient_range 191 192); vm_compute; (split || idtac); congruence. Defined.

(** X13.  For sizes from 72 up the gradient has no visible step: between
    one row and the next the red channel stays or goes up by one, and the
    green and blue channels stay or go down by one. *)
Theorem X13_gradient_smooth (y size : Z) :
  72 ≤ size < 2 ^ 31 → 0 ≤ y → y + 1 < size →
  ∃ r g b r' g' b',
    gradient_color y size = (r, g, b) ∧
    gradient_color (y + 1) size = (r', g', b') ∧
    r ≤ r' ≤ r + 1 ∧ g - 1 ≤ g' ≤ g ∧ b - 1 ≤ b' ≤ b.
Proof.
  intros Hs Hy Hy'. rewrite !gradient_color_exact by lia.
  eexists _, _, _, _, _, _. split; [reflexivity|]. split; [reflexivity|].
  rewrite !blend_red_div, !blend_green_div, !blend_blue_div by lia.
  assert (Hd : 0 < size) by lia.
  pose proof (div_step (102 * size + 16 * y) (102 * size + 16 * (y + 1)) size Hd).
  pose proof (div_step (110 * size - 35 * (y + 1)) (110 * size - 35 * y) size Hd).
  pose proof (div_step (234 * size - 72 * (y + 1)) (234 * size - 72 * y) size Hd).
  lia.
Qed.

Lemma X13_gradient_smooth_witness :
  ∃ r g b r' g' b',
    gradient_color 100 192 = (r, g, b) ∧
    gradient_color (100 + 1) 192 = (r', g', b') ∧
    r ≤ r' ≤ r + 1 ∧ g - 1 ≤ g' ≤ g ∧ b - 1 ≤ b' ≤ b.
Proof.
  apply (X13_gradient_smooth 100 192); vm_compute; (split || idtac); congruence.
Defined.

(** ** The pixels of the icon *)

Section PixelFacts.
Context `{P : Pillow}.

Lemma calendar_content_colours size sc :
  sc ∈ calendar_content size → sc.2 ∈ fixed_colours.
Proof.
  rewrite calendar_content_eq. unfold fixed_colours. intros H.
  repeat (apply elem_of_cons in H as [->|H]; [cbn [snd]; set_solver|]).
  by apply elem_of_nil in H.
Qed.

Lemma dots_eq size :
  dots size =
  [ (dot_shape size 0 0, purple_a); (dot_shape size 1 0, purple_a);
    (dot_shape size 2 0, purple_a);
    (dot_shape size 0 1, purple_b); (dot_shape size 1 1, purple_b);
    (dot_shape size 2 1, purple_b);
    (dot_shape size 0 2, purple_a); (dot_shape size 1 2, purple_a) ].
Proof. reflexivity. Qed.

End PixelFacts.


(** X14.  Every pixel of the icon is white, the body gray, one of the two
    dot colours, or the gradient colour of its own row: the mask is only
    ever 0 or 255, so pasting never blends two colours. *)
Theorem X14_palette `{P : Pillow} (size x y : Z) :
  0 ≤ x < size → 0 ≤ y < size → size < 2 ^ 31 →
  ∃ c, getpixel (draw_calendar_icon size) x y = Some c ∧
       (c ∈ fixed_colours ∨
        c = (blend_spec 102 118 y size, blend_spec 110 75 y size,
             blend_spec 234 162 y size)).
Proof.
  intros Hx Hy Hs. rewrite getpixel_draw_calendar_icon by done.
  eexists. split; [reflexivity|].
  destruct (top_ink_elem (calendar_content size) x y
              (if covers (mask_shape size (bg_radius size)) x y
               then gradient_color y size else white))
    as [->|(sc & Hin & _ & ->)].
  - destruct (covers _ x y).
    + right. by apply gradient_color_exact.
    + left. unfold fixed_colours. apply elem_of_cons. by left.
  - left. by eapply calendar_content_colours.
Qed.

Lemma X14_palette_witness :
  ∃ c, getpixel (draw_calendar_icon (P:=ideal_pillow) 192) 5 7 = Some c ∧
       (c ∈ fixed_colours ∨
        c = (blend_spec 102 118 7 192, blend_spec 110 75 7 192,
             blend_spec 234 162 7 192)).
Proof.
  apply (X14_palette (P:=ideal_pillow) 192 5 7); vm_compute; (split || idtac); congruence.
Defined.

(** X15.  From size 9 up, with a rasteriser that obeys [PillowLaws], the
    calendar leaves every pixel outside the safe zone alone: a pixel with a
    coordinate outside [[0.2 * size, 0.8 * size]] shows the rounded
    background, that is the gradient colour of its row inside the mask and
    white outside. *)
Theorem X15_outside_safe_zone `{P : Pillow} (size x y : Z) :
  PillowLaws P → 9 ≤ size < 2 ^ 31 → 0 ≤ x < size → 0 ≤ y < size →
  coord_in_safe_zone size x = false ∨ coord_in_safe_zone size y = false →
  getpixel (draw_calendar_icon size) x y =
  Some (if covers (mask_shape size (bg_radius size)) x y
        then gradient_color y size else white).
Proof.
  intros Laws Hs Hx Hy Hout.
  rewrite getpixel_draw_calendar_icon by done. f_equal.
  apply top_ink_uncovered.
  eapply Forall_impl; [apply (safe_zone_content size Hs)|].
  intros [s c] Hbox. cbn [fst] in *.
  apply (not_covers Laws).
  unfold box_in_safe_zone, coord_in_safe_zone in *.
  rewrite !andb_true_iff, !Z.leb_le in Hbox.
  rewrite !andb_false_iff, !Z.leb_gt in Hout. lia.
Qed.

Lemma X15_outside_safe_zone_witness :
  getpixel (draw_calendar_icon (P:=ideal_pillow) 192) 96 3 =
  Some (if covers (P:=ideal_pillow) (mask_shape 192 (bg_radius 192)) 96 3
        then gradient_color 3 192 else white).
Proof.
  apply (X15_outside_safe_zone (P:=ideal_pillow) 192 96 3).
  - exact ideal_pillow_laws.
  - vm_compute. split; congruence.
  - lia.
  - lia.
  - right. reflexivity.
Defined.

(** X16.  From size 9 up, with a rasteriser that obeys [PillowLaws], the
    gradient runs to the very edge of the image between the rounded
    corners: a pixel outside the safe zone whose column, or whose row, lies
    strictly between the corner arcs of the mask shows the gradient colour
    of its row. *)
Theorem X16_gradient_to_the_edge `{P : Pillow} (size x y : Z) :
  PillowLaws P → 9 ≤ size < 2 ^ 31 → 0 ≤ x < size → 0 ≤ y < size →
  coord_in_safe_zone size x = false ∨ coord_in_safe_zone size y = false →
  bg_radius size < x < size - 1 - bg_radius size ∨
  bg_radius size < y < size - 1 - bg_radius size →
  getpixel (draw_calendar_icon size) x y =
  Some (blend_spec 102 118 y size, blend_spec 110 75 y size,
        blend_spec 234 162 y size).
Proof.
  intros Laws Hs Hx Hy Hout Hband.
  rewrite getpixel_draw_calendar_icon by done.
  assert (Hr : 0 ≤ bg_radius size).
  { rewrite bg_radius_floor by lia. Z.div_mod_to_equations; lia. }
  assert (Hm : covers (mask_shape size (bg_radius size)) x y = true).
  { unfold mask_shape. cbn [covers]. destruct Hband as [Hb|Hb].
    - apply (rr_columns P Laws); cbn [bx0 by0 bx1 by1]; lia.
    - apply (rr_rows P Laws); cbn [bx0 by0 bx1 by1]; lia. }
  rewrite Hm, gradient_color_exact by lia. f_equal.
  apply top_ink_uncovered.
  eapply Forall_impl; [apply (safe_zone_content size); lia|].
  intros [s c] Hbox. cbn [fst] in *.
  apply (not_covers Laws).
  unfold box_in_safe_zone, coord_in_safe_zone in *.
  rewrite !andb_true_iff, !Z.leb_le in Hbox.
  rewrite !andb_false_iff, !Z.leb_gt in Hout. lia.
Qed.

Lemma X16_gradient_to_the_edge_witness :
  getpixel (draw_calendar_icon (P:=ideal_pillow) 192) 96 0 =
  Some (blend_spec 102 118 0 192, blend_spec 110 75 0 192,
        blend_spec 234 162 0 192).
Proof.
  apply (X16_gradient_to_the_edge (P:=ideal_pillow) 192 96 0).
  - exact ideal_pillow_laws.
  - vm_compute. split; congruence.
  - lia.
  - lia.
  - right. reflexivity.
  - left. vm_compute. split; congruence.
Defined.

(** X17.  From size 8 up, with a rasteriser that obeys [PillowLaws], the
    whole header band is white in the returned icon: the body is painted
    before it and no dot reaches it. *)
Theorem X17_header_band_white `{P : Pillow} (size x y : Z) :
  PillowLaws P → 8 ≤ size < 2 ^ 31 →
  covers (header_shape size) x y = true →
  getpixel (draw_calendar_icon size) x y = Some white.
Proof.
  intros Laws Hs Hc.
  assert (Hs' : 0 ≤ size < 2 ^ 31) by lia. layout_facts size Hs'.
  pose proof (covers_in_box Laws _ _ _ Hc) as Hb.
  apply in_box_true in Hb. unfold header_shape in Hb.
  cbn [shape_box bx0 by0 bx1 by1] in Hb.
  rewrite getpixel_draw_calendar_icon by (layout_rewrite; layout_arith).
  f_equal. rewrite calendar_content_eq.
  change ((body_shape size, body_gray) :: (header_shape size, white) :: ?l)
    with ([(body_shape size, body_gray); (header_shape size, white)] ++ l).
  rewrite top_ink_app. rewrite (top_ink_uncovered (_ :: _)).
  - unfold top_ink. cbn [foldl fst snd]. by rewrite Hc.
  - repeat apply Forall_cons_2; try apply Forall_nil_2;
      cbn [fst]; apply (not_covers Laws);
      unfold dot_shape; cbn [shape_box bx0 by0 bx1 by1];
      layout_rewrite; layout_arith.
Qed.

Lemma X17_header_band_white_witness :
  getpixel (draw_calendar_icon (P:=ideal_pillow) 192) 96 56 = Some white.
Proof.
  apply (X17_header_band_white (P:=ideal_pillow) 192 96 56).
  - exact ideal_pillow_laws.
  - vm_compute. split; congruence.
  - vm_compute. reflexivity.
Defined.

(** Where the grid of dots lies, from size 8 up. *)
Lemma dot_grid_facts size :
  8 ≤ size < 2 ^ 31 →
  0 ≤ dot_size size ∧ 2 * dot_size size < dot_spacing size ∧
  dot_size size ≤ start_x size ∧
  start_x size + 2 * dot_spacing size + dot_size size < size ∧
  dot_size size ≤ start_y size ∧
  start_y size + 2 * dot_spacing size + dot_size size < size.
Proof.
  intros Hs. assert (Hs' : 0 ≤ size < 2 ^ 31) by lia. layout_facts size Hs'.
  clear Lsx'. repeat split; layout_rewrite; layout_arith.
Qed.

Ltac other_row Laws size x y :=
  apply (not_covers Laws); unfold dot_shape; cbn [shape_box bx0 by0 bx1 by1]; lia.


(** X18.  From size 8 up, with a rasteriser that obeys [PillowLaws], every
    pixel a dot paints keeps the colour of that dot in the returned icon:
    dots of different rows never reach one another, and the dots of one row
    share their colour. *)
Theorem X18_dot_pixels `{P : Pillow} (size x y : Z) (sc : shape * color) :
  PillowLaws P → 8 ≤ size < 2 ^ 31 →
  sc ∈ dots size → covers sc.1 x y = true →
  getpixel (draw_calendar_icon size) x y = Some sc.2.
Proof.
  intros Laws Hs Hin Hc.
  destruct (dot_grid_facts size Hs) as (D0 & Dsep & Dx0 & Dx1 & Dy0 & Dy1).
  pose proof (covers_in_box Laws _ _ _ Hc) as Hb. apply in_box_true in Hb.
  rewrite dots_eq in Hin.
  assert (Hxy : 0 ≤ x < size ∧ 0 ≤ y < size).
  { repeat (apply elem_of_cons in Hin as [->|Hin];
      [unfold dot_shape in Hb; cbn [fst shape_box bx0 by0 bx1 by1] in Hb; lia|]).
    by apply elem_of_nil in Hin. }
  rewrite getpixel_draw_calendar_icon by lia. f_equal.
  rewrite calendar_content_eq. unfold top_ink. cbn [foldl fst snd].
  assert (R0 : by1 (shape_box sc.1) < start_y size + dot_spacing size - dot_size size →
    covers (dot_shape size 0 1) x y = false ∧ covers (dot_shape size 1 1) x y = false ∧
    covers (dot_shape size 2 1) x y = false ∧ covers (dot_shape size 0 2) x y = false ∧
    covers (dot_shape size 1 2) x y = false).
  { intros Hlt. repeat split; other_row Laws size x y. }
  assert (R1 : start_y size + dot_size size < by0 (shape_box sc.1) →
    by1 (shape_box sc.1) < start_y size + dot_spacing size * 2 - dot_size size →
    covers (dot_shape size 0 0) x y = false ∧ covers (dot_shape size 1 0) x y = false ∧
    covers (dot_shape size 2 0) x y = false ∧ covers (dot_shape size 0 2) x y = false ∧
    covers (dot_shape size 1 2) x y = false).
  { intros Hgt Hlt. repeat split; other_row Laws size x y. }
  assert (R2 : start_y size + dot_spacing size + dot_size size < by0 (shape_box sc.1) →
    covers (dot_shape size 0 0) x y = false ∧ covers (dot_shape size 1 0) x y = false ∧
    covers (dot_shape size 2 0) x y = false ∧ covers (dot_shape size 0 1) x y = false ∧
    covers (dot_shape size 1 1) x y = false ∧ covers (dot_shape size 2 1) x y = false).
  { intros Hgt. repeat split; other_row Laws size x y. }
  repeat (apply elem_of_cons in Hin as [->|Hin];
    [cbn [fst snd] in *;
     first
       [ destruct R0 as (E1 & E2 & E3 & E4 & E5);
           [unfold dot_shape; cbn [shape_box by1]; lia|];
         rewrite E1, E2, E3, E4, E5
       | destruct R1 as (E1 & E2 & E3 & E4 & E5);
           [unfold dot_shape; cbn [shape_box by0]; lia
           |unfold dot_shape; cbn [shape_box by1]; lia|];
         rewrite E1, E2, E3, E4, E5
       | destruct R2 as (E1 & E2 & E3 & E4 & E5 & E6);
           [unfold dot_shape; cbn [shape_box by0]; lia|];
         rewrite E1, E2, E3, E4, E5, E6 ];
     rewrite ?Hc;
     repeat match goal with
            | |- context [covers ?s x y] => destruct (covers s x y)
            end; reflexivity|]).
  by apply elem_of_nil in Hin.
Qed.

Lemma X18_dot_pixels_witness :
  getpixel (draw_calendar_icon (P:=ideal_pillow) 192) 89 80 =
  Some (dot_shape 192 1 0, purple_a).2.
Proof.
  apply (X18_dot_pixels (P:=ideal_pillow) 192 89 80 (dot_shape 192 1 0, purple_a)).
  - exact ideal_pillow_laws.
  - vm_compute. split; congruence.
  - apply elem_of_cons. right. apply elem_of_cons. left. reflexivity.
  - vm_compute. reflexivity.
Defined.


